(** * Periodic metrics push: label injection and the push loop (push.go)

    A shallow embedding of [addExtraLabels] and [initPush] from push.go,
    with the properties of the label injector and of the push loop that the
    design document states about them.

    Go's [[]byte] is [list byte]; Go's [int] results of [bytes.IndexByte]
    and [bytes.LastIndexByte] are [Z] with [-1] for "absent"; a Go [string]
    is [string]; a panic is a constructor of [result]. *)

From Equations Require Import Equations.
From Equations.Prop Require Import Logic.
From Stdlib Require Import List ZArith Lia Bool.
From Stdlib.Strings Require Import String Byte.
Import ListNotations.

Local Open Scope Z_scope.
Local Open Scope list_scope.

(** ** Go runtime pieces used by push.go *)

Definition bytes : Type := list byte.

(** [len(b)] *)
Definition len (b : bytes) : Z := Z.of_nat (List.length b).

(** [b[:n]] and [b[n:]]; every use in push.go has [0 <= n <= len(b)]
    (see [IndexByte_range] and [LastIndexByte_range]), so the run-time
    bounds check of Go never fires. *)
Definition slice_to (b : bytes) (n : Z) : bytes := firstn (Z.to_nat n) b.
Definition slice_from (b : bytes) (n : Z) : bytes := skipn (Z.to_nat n) b.

(** [[]byte(s)], the bytes that [append(dst, s...)] appends for a string. *)
Definition bytes_of (s : string) : bytes := list_byte_of_string s.

(** [bytes.IndexByte(b, c)]: index of the first instance of [c] in [b],
    or [-1] if [c] is not present. *)
Fixpoint IndexByte (b : bytes) (c : byte) : Z :=
  match b with
  | [] => -1
  | x :: t =>
      if Byte.eqb x c then 0
      else let r := IndexByte t c in
           if r <? 0 then -1 else r + 1
  end.

(** [bytes.LastIndexByte(b, c)]: index of the last instance of [c] in [b],
    or [-1] if [c] is not present. *)
Fixpoint LastIndexByte (b : bytes) (c : byte) : Z :=
  match b with
  | [] => -1
  | x :: t =>
      let r := LastIndexByte t c in
      if 0 <=? r then r + 1
      else if Byte.eqb x c then 0 else -1
  end.

(** What a [panic(fmt.Errorf(...))] of push.go carries: the format's
    arguments. *)
Inductive panic_value : Type :=
| BugInterval (interval : Z)
| BugExtraLabels (extraLabels : string) (err : string)
| BugMissingWhitespace (line : bytes).

Inductive result (A : Type) : Type :=
| Done (a : A)
| Panicked (p : panic_value).
Arguments Done {A} a.
Arguments Panicked {A} p.

Definition result_map {A B} (f : A -> B) (r : result A) : result B :=
  match r with
  | Done a => Done (f a)
  | Panicked p => Panicked p
  end.

Definition panics {A} (r : result A) : Prop := exists p, r = Panicked p.

(** ** addExtraLabels *)

Definition NL : byte := x0a.          (* newline *)
Definition LBRACE : byte := "{"%byte.
Definition RBRACE : byte := "}"%byte.
Definition COMMA : byte := ","%byte.
Definition SPACE : byte := " "%byte.

(** One iteration of [for len(src) > 0 { ... }] (push.go lines 112-138):
    from the loop variables [(dst, src)] to their values at the end of the
    body, or the panic of line 130. *)
Definition addExtraLabels_body (extraLabels : string) (dst src : bytes)
  : result (bytes * bytes) :=
  let n := IndexByte src NL in
  let '(line, src) :=
    if 0 <=? n then (slice_to src n, slice_from src (n + 1))
    else (src, []) in
  let n := IndexByte line LBRACE in
  let r :=
    if 0 <=? n then
      let dst := dst ++ slice_to line (n + 1) in
      let dst := dst ++ bytes_of extraLabels in
      let dst := dst ++ [COMMA] in
      let dst := dst ++ slice_from line (n + 1) in
      Done dst
    else
      let n := LastIndexByte line SPACE in
      if n <? 0 then Panicked (BugMissingWhitespace line)
      else
        let dst := dst ++ slice_to line n in
        let dst := dst ++ [LBRACE] in
        let dst := dst ++ bytes_of extraLabels in
        let dst := dst ++ [RBRACE] in
        let dst := dst ++ slice_from line n in
        Done dst in
  match r with
  | Panicked p => Panicked p
  | Done dst =>
      let dst := dst ++ [NL] in
      Done (dst, src)
  end.

(** [func addExtraLabels(dst, src []byte, extraLabels string) []byte]:
    the loop runs its body while [len(src) > 0]; [src] gets shorter at
    every iteration, which is the measure of the recursion. *)
Equations? addExtraLabels (dst src : bytes) (extraLabels : string)
  : result bytes by wf (List.length src) lt :=
  addExtraLabels dst src extraLabels with inspect (0 <? len src) => {
    | exist _ false _ := Done dst
    | exist _ true Hlen with inspect (addExtraLabels_body extraLabels dst src) => {
        | exist _ (Panicked p) _ := Panicked p
        | exist _ (Done (dst', src')) Hbody :=
            addExtraLabels dst' src' extraLabels } }.
Proof.
  apply Z.ltb_lt in Hlen. unfold len in Hlen.
  unfold addExtraLabels_body in Hbody.
  assert (src' = slice_from src (IndexByte src NL + 1)
          /\ 0 <= IndexByte src NL \/ src' = []) as Hsrc'.
  { destruct (0 <=? IndexByte src NL) eqn:En;
      [apply Z.leb_le in En|];
      (destruct (0 <=? IndexByte _ LBRACE);
       [|destruct (LastIndexByte _ SPACE <? 0); [discriminate|]]);
      injection Hbody as _ <-; tauto. }
  destruct Hsrc' as [[-> Hn] | ->]; [|cbn; lia].
  unfold slice_from. rewrite length_skipn. lia.
Qed.

(** ** initPush *)

(** [time.Duration], a count of nanoseconds. *)
Definition Duration : Type := Z.

(** What the goroutine started by [initPush] is closed over. *)
Record pusher : Type := Goroutine {
  pushURL : string;
  interval : Duration;
  extraLabels : string
}.

Section InitPush.

(** [validateTags] is defined in another file of the package; [None] is
    its [nil] error. *)
Variable validateTags : string -> option string.

(** Lines 77-84 and 107: the two checks, then [go func() { ... }()]. *)
Definition initPush (pushURL : string) (interval : Duration)
           (extraLabels : string) : result pusher :=
  if interval <=? 0 then Panicked (BugInterval interval)
  else
    match validateTags extraLabels with
    | Some err => Panicked (BugExtraLabels extraLabels err)
    | None => Done (Goroutine pushURL interval extraLabels)
    end.

End InitPush.

(** What [http.Post] returns: a non-nil [err], or a response. *)
Inductive postResult : Type :=
| PostError (err : string)
| PostResponse (StatusCode : Z).

(** What one tick takes from the world: the bytes that [writeMetrics]
    writes into [bb], and what [http.Post] returns. *)
Record tickInput : Type := Tick {
  written : bytes;
  posted : postResult
}.

(** What one tick does to the world. The two log events carry the
    arguments of their [log.Printf]. *)
Inductive event : Type :=
| EvWriteMetrics
| EvPost (url contentType : string) (body : bytes)
| EvBodyClose
| EvLogCannotPush (url err : string)
| EvLogUnexpectedStatus (url : string) (StatusCode : Z).

(** The variables of the goroutine that outlive an iteration. *)
Record pushState : Type := PushState {
  bb : bytes;
  tmpBuf : bytes
}.

(** Lines 89-95: the payload of this tick, left in [bb]. *)
Definition preparePayload (extraLabels : string) (st : pushState)
           (snapshot : bytes) : result pushState :=
  let bb := [] in                                  (* bb.Reset() *)
  let bb := bb ++ snapshot in                      (* writeMetrics(&bb) *)
  if 0 <? len (bytes_of extraLabels) then
    match addExtraLabels (slice_to (tmpBuf st) 0) bb extraLabels with
    | Panicked p => Panicked p
    | Done tmpBuf =>
        let bb := [] in                            (* bb.Reset() *)
        let bb := bb ++ tmpBuf in                  (* bb.Write(tmpBuf) *)
        Done (PushState bb tmpBuf)
    end
  else Done (PushState bb (tmpBuf st)).

(** Lines 96-105: the POST and what is done with its outcome. Both
    [continue] statements and the end of the body lead to the next
    iteration, so the events are all there is to return. *)
Definition deliver (pushURL : string) (body : bytes) (r : postResult)
  : list event :=
  let post := EvPost pushURL "text/plain" body in
  match r with
  | PostError err => [post; EvLogCannotPush pushURL err]
  | PostResponse StatusCode =>
      if negb (Z.quot StatusCode 100 =? 2)
      then [post; EvBodyClose; EvLogUnexpectedStatus pushURL StatusCode]
      else [post; EvBodyClose]
  end.

(** One iteration of [for range ticker.C]: its events, and the state for
    the next iteration or the panic that ends the goroutine. How much of
    [bb] the HTTP client has read is not kept: the next iteration starts
    with [bb.Reset()]. *)
Definition pushTick (g : pusher) (st : pushState) (t : tickInput)
  : list event * result pushState :=
  match preparePayload (extraLabels g) st (written t) with
  | Panicked p => ([EvWriteMetrics], Panicked p)
  | Done st' =>
      (EvWriteMetrics :: deliver (pushURL g) (bb st') (posted t), Done st')
  end.

(** The goroutine over the ticks that the ticker delivers: the events in
    order, and the panic that stopped it if one did. *)
Fixpoint pushLoop (g : pusher) (st : pushState) (ticks : list tickInput)
  : list event * option panic_value :=
  match ticks with
  | [] => ([], None)
  | t :: ticks' =>
      match pushTick g st t with
      | (evs, Panicked p) => (evs, Some p)
      | (evs, Done st') =>
          let '(evs', r) := pushLoop g st' ticks' in (evs ++ evs', r)
      end
  end.

(** A call of [initPush] and then the ticks: what the world sees. *)
Definition runPush (validateTags : string -> option string)
           (pushURL : string) (interval : Duration) (extraLabels : string)
           (ticks : list tickInput) : list event * option panic_value :=
  match initPush validateTags pushURL interval extraLabels with
  | Panicked p => ([], Some p)
  | Done g => pushLoop g (PushState [] []) ticks
  end.

(** The bodies of the POSTs of a trace, in order. *)
Fixpoint postBodies (evs : list event) : list bytes :=
  match evs with
  | [] => []
  | EvPost _ _ body :: evs' => body :: postBodies evs'
  | _ :: evs' => postBodies evs'
  end.

Definition is2xx (StatusCode : Z) : Prop := 200 <= StatusCode <= 299.

(** ** The line rules of the design document, stated on their own

    These follow the document's words: a block is cut into lines on ['\n']
    boundaries, a trailing piece with no terminator being a complete final
    line; a line is rewritten at its first ['{'], else at its last space,
    else it is malformed. They are compared with the code in
    [addExtraLabels_refines]. *)

(** The lines of a block. *)
Fixpoint splitLines (src : bytes) : list bytes :=
  match src with
  | [] => []
  | x :: rest =>
      if Byte.eqb x NL then [] :: splitLines rest
      else match splitLines rest with
           | [] => [[x]]
           | l :: ls => (x :: l) :: ls
           end
  end.

(** A block put together again from lines, each with its terminator. *)
Definition joinLines (ls : list bytes) : bytes :=
  List.concat (map (fun l => l ++ [NL]) ls).

(** [l] cut around the first [c]: what is before it and what is after. *)
Fixpoint cut_first (c : byte) (l : bytes) : option (bytes * bytes) :=
  match l with
  | [] => None
  | x :: t =>
      if Byte.eqb x c then Some ([], t)
      else match cut_first c t with
           | Some (a, b) => Some (x :: a, b)
           | None => None
           end
  end.

(** [l] cut around the last [c]. *)
Fixpoint cut_last (c : byte) (l : bytes) : option (bytes * bytes) :=
  match l with
  | [] => None
  | x :: t =>
      match cut_last c t with
      | Some (a, b) => Some (x :: a, b)
      | None => if Byte.eqb x c then Some ([], t) else None
      end
  end.

(** Rules 1 to 3 for one line, without the terminator; [None] is the
    malformed line. *)
Definition injectLine (extra : bytes) (line : bytes) : option bytes :=
  match cut_first LBRACE line with
  | Some (pre, post) => Some (pre ++ [LBRACE] ++ extra ++ [COMMA] ++ post)
  | None =>
      match cut_last SPACE line with
      | Some (name, value) =>
          Some (name ++ [LBRACE] ++ extra ++ [RBRACE] ++ [SPACE] ++ value)
      | None => None
      end
  end.

(** The rules applied to the lines in order, stopping at the first
    malformed one. *)
Fixpoint injectLines (extra : bytes) (ls : list bytes) : result (list bytes) :=
  match ls with
  | [] => Done []
  | l :: ls' =>
      match injectLine extra l with
      | None => Panicked (BugMissingWhitespace l)
      | Some o => result_map (cons o) (injectLines extra ls')
      end
  end.

Definition wellFormedLine (line : bytes) : Prop :=
  In LBRACE line \/ In SPACE line.

Definition newlineFree (l : bytes) : Prop := ~ In NL l.

(** ** Concrete lines and fragments of the design document *)

Definition DQUOTE : string := String (Ascii.ascii_of_byte x22) EmptyString.
Definition quoted (s : string) : string := (DQUOTE ++ s ++ DQUOTE)%string.

(** b="2" and c="3" *)
Definition label_b2 : string := ("b=" ++ quoted "2")%string.
Definition label_c3 : string := ("c=" ++ quoted "3")%string.

(** foo{a="1"} 5 *)
Definition line_foo_a1 : bytes := bytes_of ("foo{a=" ++ quoted "1" ++ "} 5")%string.
(** foo 5 *)
Definition line_foo : bytes := bytes_of "foo 5".

(** A push target with extra labels b="2". *)
Definition push_b2 : pusher := Goroutine "http://host/push" 10 label_b2.

(** foo{b="2"} 5 and a newline: the payload of [push_b2] for [line_foo]. *)
Definition payload_foo_b2 : bytes :=
  bytes_of ("foo{b=" ++ quoted "2" ++ "} 5")%string ++ [NL].

(** a="<newline>": a label whose value holds a newline byte. *)
Definition label_with_newline : string :=
  ("a=" ++ quoted (String (Ascii.ascii_of_byte NL) EmptyString))%string.

(** ** The exported entry points (push.go lines 25-75) *)

Definition result_bind {A B} (r : result A) (f : A -> result B) : result B :=
  match r with
  | Done a => f a
  | Panicked p => Panicked p
  end.

Section EntryPoints.

(** The state of the registered metrics and of the process when a tick
    fires. *)
Variable World : Type.

(** The type [Set] with its method [WritePrometheus], the function
    [WriteProcessMetrics] and the variable [defaultSet] are defined in
    other files of the package; the two writers are taken by the bytes
    they write to [w]. *)
Variable MetricSet : Type.
Variable WritePrometheus : MetricSet -> World -> bytes.
Variable WriteProcessMetrics : World -> bytes.
Variable defaultSet : MetricSet.
Variable validateTags : string -> option string.

(** A [func(w io.Writer)]: the bytes it writes. *)
Definition writer : Type := World -> bytes.

(** A call [initPush(pushURL, interval, extraLabels, writeMetrics)]: what
    [initPush] returns, and the writer the goroutine is closed over. *)
Definition pushTarget : Type := (result pusher * writer)%type.

Definition InitPushProcessMetrics (pushURL : string) (interval : Duration)
           (extraLabels : string) : pushTarget :=
  let writeMetrics := fun w => WriteProcessMetrics w in
  (initPush validateTags pushURL interval extraLabels, writeMetrics).

Definition InitPush (pushURL : string) (interval : Duration)
           (extraLabels : string) (pushProcessMetrics : bool) : pushTarget :=
  let writeMetrics := fun w =>
    let out := WritePrometheus defaultSet w in
    if pushProcessMetrics then out ++ WriteProcessMetrics w else out in
  (initPush validateTags pushURL interval extraLabels, writeMetrics).

(** The method [InitPush] of [Set], with receiver [s]. *)
Definition Set_InitPush (s : MetricSet) (pushURL : string)
           (interval : Duration) (extraLabels : string) : pushTarget :=
  let writeMetrics := fun w => WritePrometheus s w in
  (initPush validateTags pushURL interval extraLabels, writeMetrics).

(** A target over the ticks of its ticker, each with the world at that
    time and the outcome of its POST. *)
Definition runTarget (target : pushTarget)
           (ticks : list (World * postResult))
  : list event * option panic_value :=
  match fst target with
  | Panicked p => ([], Some p)
  | Done g =>
      pushLoop g (PushState [] [])
               (map (fun wr => Tick (snd target (fst wr)) (snd wr)) ticks)
  end.

End EntryPoints.

(** ** Notions used in the further properties *)

(** A block whose last line has its terminator. *)
Definition terminated (block : bytes) : Prop :=
  block = [] \/ exists b, block = b ++ [NL].

(** A line whose first ['{'] is followed by [extra]. *)
Definition carriesLabels (extra : bytes) (line : bytes) : Prop :=
  exists pre rest, line = pre ++ LBRACE :: extra ++ rest /\ ~ In LBRACE pre.

(** The payload of a tick from its snapshot alone: the snapshot when no
    extra labels are set, else the snapshot with the extra labels
    injected. *)
Definition payloadOf (labels : string) (snapshot : bytes) : result bytes :=
  if 0 <? len (bytes_of labels) then addExtraLabels [] snapshot labels
  else Done snapshot.

(** The payloads of the snapshots in order, up to the first one that
    panics. *)
Fixpoint payloadsUntilPanic (labels : string) (snapshots : list bytes)
  : list bytes :=
  match snapshots with
  | [] => []
  | snapshot :: rest =>
      match payloadOf labels snapshot with
      | Done body => body :: payloadsUntilPanic labels rest
      | Panicked _ => []
      end
  end.

(** A POST of [body] to [url] as text/plain, or an event that is no POST. *)
Definition postsOnlyTo (url : string) (e : event) : Prop :=
  match e with
  | EvPost u contentType _ => u = url /\ contentType = "text/plain"%string
  | _ => True
  end.

Definition isLog (e : event) : bool :=
  match e with
  | EvLogCannotPush _ _ | EvLogUnexpectedStatus _ _ => true
  | _ => false
  end.

(** A world of one state, in which the default set writes the line foo 5
    with its terminator and the process metrics are the line foo{a="1"} 5;
    a [validateTags] that accepts everything. *)
Definition demo_WritePrometheus (_ : unit) (_ : unit) : bytes :=
  line_foo ++ [NL].
Definition demo_WriteProcessMetrics (_ : unit) : bytes := line_foo_a1.
Definition accept_all (_ : string) : option string := None.

(** foo{b="2",a="1"} 5 and a newline. *)
Definition payload_foo_a1_b2 : bytes :=
  bytes_of ("foo{b=" ++ quoted "2" ++ ",a=" ++ quoted "1" ++ "} 5")%string
  ++ [NL].

(** ** Proof tactics *)

Ltac app_norm :=
  repeat first [rewrite <- app_assoc | progress cbn [app]].

Ltac len_norm :=
  unfold len; repeat first [rewrite length_app | progress cbn [List.length app]].

Ltac in_norm :=
  repeat first [rewrite in_app_iff in * | progress cbn [In app] in * ].

(** ** Facts about the byte primitives *)

Lemma IndexByte_range (b : bytes) (c : byte) :
  -1 <= IndexByte b c < len b.
Proof.
  unfold len. induction b as [|x t IH]; cbn [IndexByte List.length].
  - lia.
  - destruct (Byte.eqb x c); [lia|].
    destruct (IndexByte t c <? 0) eqn:E; [lia|].
    apply Z.ltb_ge in E. lia.
Qed.

Lemma LastIndexByte_range (b : bytes) (c : byte) :
  -1 <= LastIndexByte b c < len b.
Proof.
  unfold len. induction b as [|x t IH]; cbn [LastIndexByte List.length].
  - lia.
  - destruct (0 <=? LastIndexByte t c) eqn:E.
    + apply Z.leb_le in E. lia.
    + destruct (Byte.eqb x c); lia.
Qed.
Lemma eqb_refl (c : byte) : Byte.eqb c c = true.
Proof. now apply Byte.byte_dec_lb. Qed.

Lemma eqb_neq (x c : byte) : x <> c -> Byte.eqb x c = false.
Proof.
  intros H. destruct (Byte.eqb x c) eqn:E; [|reflexivity].
  now apply Byte.byte_dec_bl in E.
Qed.

Lemma len_nil : len [] = 0.
Proof. reflexivity. Qed.

Lemma len_cons x (b : bytes) : len (x :: b) = len b + 1.
Proof. unfold len. cbn [List.length]. lia. Qed.

Lemma len_nonneg (b : bytes) : 0 <= len b.
Proof. unfold len. lia. Qed.

Lemma len_app (a b : bytes) : len (a ++ b) = len a + len b.
Proof. unfold len. rewrite length_app. lia. Qed.

Lemma IndexByte_absent (b : bytes) (c : byte) :
  ~ In c b -> IndexByte b c = -1.
Proof.
  induction b as [|x t IH]; cbn [IndexByte In]; intros H; [reflexivity|].
  rewrite eqb_neq by (intros ->; apply H; now left).
  rewrite IH by (intros Hin; apply H; now right). reflexivity.
Qed.

Lemma IndexByte_first (a b : bytes) (c : byte) :
  ~ In c a -> IndexByte (a ++ c :: b) c = len a.
Proof.
  induction a as [|x t IH]; cbn [IndexByte In app]; intros H.
  - now rewrite eqb_refl.
  - rewrite eqb_neq by (intros ->; apply H; now left).
    rewrite IH by (intros Hin; apply H; now right).
    rewrite len_cons. pose proof (len_nonneg t).
    destruct (len t <? 0) eqn:E; [apply Z.ltb_lt in E; lia | reflexivity].
Qed.

Lemma LastIndexByte_absent (b : bytes) (c : byte) :
  ~ In c b -> LastIndexByte b c = -1.
Proof.
  induction b as [|x t IH]; cbn [LastIndexByte In]; intros H; [reflexivity|].
  rewrite IH by (intros Hin; apply H; now right). cbn.
  now rewrite eqb_neq by (intros ->; apply H; now left).
Qed.

Lemma LastIndexByte_last (a b : bytes) (c : byte) :
  ~ In c b -> LastIndexByte (a ++ c :: b) c = len a.
Proof.
  intros H. induction a as [|x t IH]; cbn [LastIndexByte app].
  - rewrite LastIndexByte_absent by exact H. cbn. now rewrite eqb_refl.
  - rewrite IH, len_cons. pose proof (len_nonneg t).
    destruct (0 <=? len t) eqn:E; [reflexivity | apply Z.leb_gt in E; lia].
Qed.

Lemma slice_to_app (a b : bytes) : slice_to (a ++ b) (len a) = a.
Proof.
  unfold slice_to, len. rewrite Nat2Z.id, firstn_app, Nat.sub_diag.
  cbn. now rewrite firstn_all, app_nil_r.
Qed.

Lemma slice_from_app (a b : bytes) : slice_from (a ++ b) (len a) = b.
Proof.
  unfold slice_from, len. rewrite Nat2Z.id, skipn_app, Nat.sub_diag.
  cbn. now rewrite skipn_all.
Qed.

Lemma slice_to_app1 (a b : bytes) (c : byte) :
  slice_to (a ++ c :: b) (len a + 1) = a ++ [c].
Proof.
  replace (a ++ c :: b) with ((a ++ [c]) ++ b) by now rewrite <- app_assoc.
  replace (len a + 1) with (len (a ++ [c])) by now rewrite len_app.
  apply slice_to_app.
Qed.

Lemma slice_from_app1 (a b : bytes) (c : byte) :
  slice_from (a ++ c :: b) (len a + 1) = b.
Proof.
  replace (a ++ c :: b) with ((a ++ [c]) ++ b) by now rewrite <- app_assoc.
  replace (len a + 1) with (len (a ++ [c])) by now rewrite len_app.
  apply slice_from_app.
Qed.

(** A byte that occurs has a first and a last occurrence. *)
Lemma first_occurrence (c : byte) (l : bytes) :
  In c l -> exists a b, l = a ++ c :: b /\ ~ In c a.
Proof.
  induction l as [|x t IH]; cbn [In]; [tauto|]. intros H.
  destruct (Byte.byte_eq_dec x c) as [->|Hne].
  - exists [], t. cbn. tauto.
  - destruct IH as (a & b & -> & Ha); [tauto|].
    exists (x :: a), b. cbn. split; [reflexivity | tauto].
Qed.

Lemma last_occurrence (c : byte) (l : bytes) :
  In c l -> exists a b, l = a ++ c :: b /\ ~ In c b.
Proof.
  induction l as [|x t IH]; cbn [In]; [tauto|]. intros H.
  destruct (in_dec Byte.byte_eq_dec c t) as [Hin|Hnin].
  - destruct (IH Hin) as (a & b & -> & Hb).
    exists (x :: a), b. split; [reflexivity | exact Hb].
  - destruct H as [->|H]; [|tauto].
    exists [], t. split; [reflexivity | exact Hnin].
Qed.

Lemma cut_first_spec (c : byte) (a b : bytes) :
  ~ In c a -> cut_first c (a ++ c :: b) = Some (a, b).
Proof.
  induction a as [|x t IH]; cbn [cut_first In app]; intros H.
  - now rewrite eqb_refl.
  - rewrite eqb_neq by (intros ->; apply H; now left).
    now rewrite IH by (intros Hin; apply H; now right).
Qed.

Lemma cut_first_absent (c : byte) (l : bytes) :
  ~ In c l -> cut_first c l = None.
Proof.
  induction l as [|x t IH]; cbn [cut_first In]; intros H; [reflexivity|].
  rewrite eqb_neq by (intros ->; apply H; now left).
  now rewrite IH by (intros Hin; apply H; now right).
Qed.

Lemma cut_last_absent (c : byte) (l : bytes) :
  ~ In c l -> cut_last c l = None.
Proof.
  induction l as [|x t IH]; cbn [cut_last In]; intros H; [reflexivity|].
  rewrite IH by (intros Hin; apply H; now right).
  now rewrite eqb_neq by (intros ->; apply H; now left).
Qed.

Lemma cut_last_spec (c : byte) (a b : bytes) :
  ~ In c b -> cut_last c (a ++ c :: b) = Some (a, b).
Proof.
  intros H. induction a as [|x t IH]; cbn [cut_last app].
  - rewrite cut_last_absent by exact H. now rewrite eqb_refl.
  - now rewrite IH.
Qed.

(** ** The loop, one iteration at a time *)

Lemma addExtraLabels_step (dst src : bytes) (extraLabels : string) :
  addExtraLabels dst src extraLabels =
  if 0 <? len src then
    match addExtraLabels_body extraLabels dst src with
    | Panicked p => Panicked p
    | Done (dst', src') => addExtraLabels dst' src' extraLabels
    end
  else Done dst.
Proof.
  funelim (addExtraLabels dst src extraLabels);
    try match goal with H : (0 <? len _) = _ |- _ => rewrite H end;
    try match goal with
        | H : addExtraLabels_body _ _ _ = _ |- _ => rewrite H
        end;
    reflexivity.
Qed.

Lemma leb_0_len (b : bytes) : (0 <=? len b) = true.
Proof. apply Z.leb_le, len_nonneg. Qed.

Lemma ltb_len_0 (b : bytes) : (len b <? 0) = false.
Proof. apply Z.ltb_ge, len_nonneg. Qed.

(** Lines 121-138 on a line given by its shape. *)
Lemma body_line (extraLabels : string) (dst src line rest : bytes) :
  ~ In NL line ->
  src = line ++ NL :: rest \/ (src = line /\ rest = []) ->
  addExtraLabels_body extraLabels dst src =
  match injectLine (bytes_of extraLabels) line with
  | Some o => Done (dst ++ o ++ [NL], rest)
  | None => Panicked (BugMissingWhitespace line)
  end.
Proof.
  intros Hnl Hsrc. unfold addExtraLabels_body.
  assert ((if 0 <=? IndexByte src NL
           then (slice_to src (IndexByte src NL),
                 slice_from src (IndexByte src NL + 1))
           else (src, [])) = (line, rest)) as ->.
  { destruct Hsrc as [-> | [-> ->]].
    - rewrite IndexByte_first by exact Hnl.
      now rewrite leb_0_len, slice_to_app, slice_from_app1.
    - now rewrite IndexByte_absent by exact Hnl. }
  unfold injectLine.
  destruct (in_dec Byte.byte_eq_dec LBRACE line) as [Hb | Hb].
  - destruct (first_occurrence _ _ Hb) as (a & b & -> & Ha).
    rewrite IndexByte_first, cut_first_spec by exact Ha.
    rewrite leb_0_len, slice_to_app1, slice_from_app1.
    now rewrite <- !app_assoc.
  - rewrite IndexByte_absent, cut_first_absent by exact Hb. cbn [Z.leb Z.compare].
    destruct (in_dec Byte.byte_eq_dec SPACE line) as [Hs | Hs].
    + destruct (last_occurrence _ _ Hs) as (a & b & -> & Ha).
      rewrite LastIndexByte_last, cut_last_spec by exact Ha.
      rewrite ltb_len_0, slice_to_app, slice_from_app.
      now rewrite <- !app_assoc.
    + now rewrite LastIndexByte_absent, cut_last_absent by exact Hs.
Qed.

(** The shape of a non-empty block: a first line, then either its
    terminator and the rest, or nothing. *)
Lemma block_shape (src : bytes) :
  src <> [] ->
  exists line rest,
    ~ In NL line /\
    (src = line ++ NL :: rest \/ (src = line /\ rest = [])).
Proof.
  intros _. destruct (in_dec Byte.byte_eq_dec NL src) as [H | H].
  - destruct (first_occurrence _ _ H) as (a & b & -> & Ha).
    exists a, b. split; [exact Ha | now left].
  - exists src, []. split; [exact H | now right].
Qed.

Lemma splitLines_unterminated (line : bytes) :
  line <> [] -> ~ In NL line -> splitLines line = [line].
Proof.
  induction line as [|x t IH]; [congruence|]. intros _ H.
  cbn [splitLines]. rewrite eqb_neq by (intros ->; apply H; now left).
  destruct t as [|y t']; [reflexivity|].
  rewrite IH; [reflexivity | discriminate |].
  intros Hin. apply H. now right.
Qed.

Lemma splitLines_terminated (line rest : bytes) :
  ~ In NL line -> splitLines (line ++ NL :: rest) = line :: splitLines rest.
Proof.
  induction line as [|x t IH]; intros H; cbn [splitLines app].
  - now rewrite eqb_refl.
  - rewrite eqb_neq by (intros ->; apply H; now left).
    now rewrite IH by (intros Hin; apply H; now right).
Qed.

(** The code against the rules: [addExtraLabels] appends to [dst] the
    rewritten lines of [src], each with a terminator, and panics at the
    first malformed line. *)
Lemma addExtraLabels_refines (dst src : bytes) (extraLabels : string) :
  addExtraLabels dst src extraLabels =
  result_map (fun ls => dst ++ joinLines ls)
             (injectLines (bytes_of extraLabels) (splitLines src)).
Proof.
  remember (List.length src) as k eqn:Hk.
  revert dst src Hk.
  induction k as [k IH] using (well_founded_induction lt_wf).
  intros dst src ->. rewrite addExtraLabels_step.
  destruct src as [|x t].
  - cbn. now rewrite app_nil_r.
  - replace (0 <? len (x :: t)) with true
      by (symmetry; apply Z.ltb_lt; rewrite len_cons; pose proof (len_nonneg t); lia).
    destruct (block_shape (x :: t)) as (line & rest & Hnl & Hshape);
      [discriminate|].
    rewrite (body_line _ _ _ line rest Hnl Hshape).
    assert (splitLines (x :: t) = line :: splitLines rest) as ->.
    { destruct Hshape as [-> | [<- ->]].
      - now apply splitLines_terminated.
      - now apply splitLines_unterminated. }
    cbn [injectLines].
    destruct (injectLine (bytes_of extraLabels) line) as [o|]; [|reflexivity].
    rewrite (IH (List.length rest)) with (src := rest); [| |reflexivity].
    + destruct (injectLines _ _); cbn; [|reflexivity].
      unfold joinLines. cbn. now rewrite <- !app_assoc.
    + destruct Hshape as [E | [_ ->]]; [|cbn; lia].
      rewrite E, length_app. cbn. lia.
Qed.

(** The loop on a block that starts with a terminated line, and on a
    block that is one unterminated line. *)
Lemma addExtraLabels_line (dst line rest : bytes) (extraLabels : string) :
  ~ In NL line ->
  addExtraLabels dst (line ++ NL :: rest) extraLabels =
  match injectLine (bytes_of extraLabels) line with
  | Some o => addExtraLabels (dst ++ o ++ [NL]) rest extraLabels
  | None => Panicked (BugMissingWhitespace line)
  end.
Proof.
  intros Hnl. rewrite addExtraLabels_step.
  replace (0 <? len (line ++ NL :: rest)) with true.
  - rewrite (body_line _ _ _ line rest Hnl) by now left.
    now destruct (injectLine _ line).
  - symmetry. apply Z.ltb_lt. rewrite len_app, len_cons.
    pose proof (len_nonneg line). pose proof (len_nonneg rest). lia.
Qed.

Lemma addExtraLabels_last_line (dst line : bytes) (extraLabels : string) :
  line <> [] -> ~ In NL line ->
  addExtraLabels dst line extraLabels =
  match injectLine (bytes_of extraLabels) line with
  | Some o => Done (dst ++ o ++ [NL])
  | None => Panicked (BugMissingWhitespace line)
  end.
Proof.
  intros Hne Hnl. rewrite addExtraLabels_step.
  destruct line as [|x t]; [congruence|].
  replace (0 <? len (x :: t)) with true
    by (symmetry; apply Z.ltb_lt; rewrite len_cons; pose proof (len_nonneg t); lia).
  rewrite (body_line _ _ _ (x :: t) [] Hnl) by now right.
  destruct (injectLine _ (x :: t)); [|reflexivity].
  now rewrite addExtraLabels_step.
Qed.

Lemma injectLine_labelled (extra pre post : bytes) :
  ~ In LBRACE pre ->
  injectLine extra (pre ++ LBRACE :: post) =
  Some (pre ++ [LBRACE] ++ extra ++ [COMMA] ++ post).
Proof. intros H. unfold injectLine. now rewrite cut_first_spec. Qed.

Lemma injectLine_bare (extra name value : bytes) :
  ~ In LBRACE (name ++ SPACE :: value) -> ~ In SPACE value ->
  injectLine extra (name ++ SPACE :: value) =
  Some (name ++ [LBRACE] ++ extra ++ [RBRACE] ++ [SPACE] ++ value).
Proof.
  intros Hb Hs. unfold injectLine.
  now rewrite cut_first_absent, cut_last_spec.
Qed.

Lemma injectLine_None (extra line : bytes) :
  injectLine extra line = None <-> ~ In LBRACE line /\ ~ In SPACE line.
Proof.
  unfold injectLine. split.
  - intros H. split; intros Hin.
    + destruct (first_occurrence _ _ Hin) as (a & b & -> & Ha).
      now rewrite cut_first_spec in H.
    + destruct (cut_first LBRACE line) as [[? ?]|]; [discriminate|].
      destruct (last_occurrence _ _ Hin) as (a & b & -> & Ha).
      now rewrite cut_last_spec in H.
  - intros [Hb Hs]. now rewrite cut_first_absent, cut_last_absent.
Qed.

Lemma injectLine_Some (extra line : bytes) :
  wellFormedLine line -> exists o, injectLine extra line = Some o.
Proof.
  intros H. destruct (injectLine extra line) as [o|] eqn:E; [now exists o|].
  apply injectLine_None in E. unfold wellFormedLine in H. tauto.
Qed.

(** ** The label injector: the two line shapes *)

(** C1. A line that contains ['{'] is emitted as its text up to and
    including the first ['{'], then the extra labels, then a comma, then
    the rest of the line unchanged, then a newline, whether the line is
    the unterminated last one or is followed by its terminator and more
    lines. With extra labels b="2" the line foo{a="1"} 5 becomes
    foo{b="2",a="1"} 5 and a newline. *)
Theorem addExtraLabels_labelled_line :
  (forall (dst line rest : bytes) (extraLabels : string),
      ~ In NL line -> In LBRACE line ->
      exists pre post,
        line = pre ++ LBRACE :: post /\ ~ In LBRACE pre /\
        let out := pre ++ [LBRACE] ++ bytes_of extraLabels ++ [COMMA]
                       ++ post ++ [NL] in
        addExtraLabels dst line extraLabels = Done (dst ++ out) /\
        addExtraLabels dst (line ++ NL :: rest) extraLabels =
        addExtraLabels (dst ++ out) rest extraLabels) /\
  addExtraLabels [] line_foo_a1 label_b2 =
  Done (bytes_of ("foo{b=" ++ quoted "2" ++ ",a=" ++ quoted "1" ++ "} 5")%string
        ++ [NL]).
Proof.
  split; [|reflexivity].
  intros dst line rest extraLabels Hnl Hb.
  destruct (first_occurrence _ _ Hb) as (pre & post & -> & Hpre).
  exists pre, post. split; [reflexivity|]. split; [exact Hpre|]. cbv zeta.
  split.
  - rewrite addExtraLabels_last_line; [|now destruct pre|exact Hnl].
    rewrite injectLine_labelled by exact Hpre. now rewrite <- !app_assoc.
  - rewrite addExtraLabels_line by exact Hnl.
    rewrite injectLine_labelled by exact Hpre. now rewrite <- !app_assoc.
Qed.

Lemma addExtraLabels_labelled_line_witness :
  ~ In NL line_foo_a1 /\ In LBRACE line_foo_a1 /\
  exists pre post,
    line_foo_a1 = pre ++ LBRACE :: post /\ ~ In LBRACE pre /\
    let out := pre ++ [LBRACE] ++ bytes_of label_b2 ++ [COMMA]
                   ++ post ++ [NL] in
    addExtraLabels [] line_foo_a1 label_b2 = Done ([] ++ out) /\
    addExtraLabels [] (line_foo_a1 ++ NL :: line_foo) label_b2 =
    addExtraLabels ([] ++ out) line_foo label_b2.
Proof.
  assert (~ In NL line_foo_a1) as Hnl by (vm_compute; intuition discriminate).
  assert (In LBRACE line_foo_a1) as Hb by (vm_compute; tauto).
  split; [exact Hnl|]. split; [exact Hb|].
  exact (proj1 addExtraLabels_labelled_line [] line_foo_a1 line_foo label_b2 Hnl Hb).
Defined.

(** C2. A line with no ['{'] that contains a space is emitted as its
    prefix before the last space (the metric name), ['{'], the extra
    labels, ['}'], then the separator and the value, then a newline. With
    extra labels b="2" the line foo 5 becomes foo{b="2"} 5 and a newline. *)
Theorem addExtraLabels_bare_line :
  (forall (dst line rest : bytes) (extraLabels : string),
      ~ In NL line -> ~ In LBRACE line -> In SPACE line ->
      exists name value,
        line = name ++ SPACE :: value /\ ~ In SPACE value /\
        let out := name ++ [LBRACE] ++ bytes_of extraLabels ++ [RBRACE]
                        ++ [SPACE] ++ value ++ [NL] in
        addExtraLabels dst line extraLabels = Done (dst ++ out) /\
        addExtraLabels dst (line ++ NL :: rest) extraLabels =
        addExtraLabels (dst ++ out) rest extraLabels) /\
  addExtraLabels [] line_foo label_b2 =
  Done (bytes_of ("foo{b=" ++ quoted "2" ++ "} 5")%string ++ [NL]).
Proof.
  split; [|reflexivity].
  intros dst line rest extraLabels Hnl Hb Hs.
  destruct (last_occurrence _ _ Hs) as (name & value & -> & Hvalue).
  exists name, value. split; [reflexivity|]. split; [exact Hvalue|]. cbv zeta.
  split.
  - rewrite addExtraLabels_last_line; [|now destruct name|exact Hnl].
    rewrite injectLine_bare by assumption. now rewrite <- !app_assoc.
  - rewrite addExtraLabels_line by exact Hnl.
    rewrite injectLine_bare by assumption. now rewrite <- !app_assoc.
Qed.

Lemma addExtraLabels_bare_line_witness :
  ~ In NL line_foo /\ ~ In LBRACE line_foo /\ In SPACE line_foo /\
  exists name value,
    line_foo = name ++ SPACE :: value /\ ~ In SPACE value /\
    let out := name ++ [LBRACE] ++ bytes_of label_b2 ++ [RBRACE]
                    ++ [SPACE] ++ value ++ [NL] in
    addExtraLabels [] line_foo label_b2 = Done ([] ++ out) /\
    addExtraLabels [] (line_foo ++ NL :: line_foo_a1) label_b2 =
    addExtraLabels ([] ++ out) line_foo_a1 label_b2.
Proof.
  assert (~ In NL line_foo) as Hnl by (vm_compute; intuition discriminate).
  assert (~ In LBRACE line_foo) as Hb by (vm_compute; intuition discriminate).
  assert (In SPACE line_foo) as Hs by (vm_compute; tauto).
  split; [exact Hnl|]. split; [exact Hb|]. split; [exact Hs|].
  exact (proj1 addExtraLabels_bare_line [] line_foo line_foo_a1 label_b2 Hnl Hb Hs).
Defined.

(** ** Malformed lines *)

Lemma injectLines_Panicked (extra : bytes) (ls : list bytes) (p : panic_value) :
  injectLines extra ls = Panicked p ->
  exists l, In l ls /\ injectLine extra l = None /\ p = BugMissingWhitespace l.
Proof.
  induction ls as [|l ls IH]; cbn [injectLines]; [discriminate|].
  destruct (injectLine extra l) as [o|] eqn:E.
  - destruct (injectLines extra ls) as [outs|q]; cbn; [discriminate|].
    intros [= ->]. destruct IH as (l' & Hin & Hl' & ->); [reflexivity|].
    exists l'. split; [now right | now split].
  - intros [= <-]. exists l. split; [now left | now split].
Qed.

Lemma injectLines_malformed (extra : bytes) (ls : list bytes) (l : bytes) :
  In l ls -> injectLine extra l = None -> panics (injectLines extra ls).
Proof.
  intros Hin Hl. induction ls as [|l' ls IH]; [destruct Hin|].
  cbn [injectLines].
  destruct (injectLine extra l') as [o|] eqn:E.
  - destruct Hin as [-> | Hin]; [congruence|].
    destruct (IH Hin) as [p ->]. now exists p.
  - now exists (BugMissingWhitespace l').
Qed.

Lemma injectLines_Done (extra : bytes) (ls : list bytes) :
  Forall wellFormedLine ls ->
  exists outs,
    injectLines extra ls = Done outs /\
    Forall2 (fun l o => injectLine extra l = Some o) ls outs.
Proof.
  induction 1 as [|l ls Hl _ (outs & E & Hall)]; cbn [injectLines].
  - exists []. split; [reflexivity | constructor].
  - destruct (injectLine_Some extra l Hl) as [o Ho]. rewrite Ho, E.
    exists (o :: outs). split; [reflexivity | now constructor].
Qed.

(** C3. A block with a line that has neither ['{'] nor a space makes the
    label injector panic, and a panic of the label injector always comes
    from such a line, which it reports; a block of one such line panics
    on that line. *)
Theorem addExtraLabels_panics_iff_malformed
    (dst src : bytes) (extraLabels : string) :
  (forall line,
      In line (splitLines src) -> ~ In LBRACE line -> ~ In SPACE line ->
      panics (addExtraLabels dst src extraLabels)) /\
  (forall p,
      addExtraLabels dst src extraLabels = Panicked p ->
      exists line,
        In line (splitLines src) /\ ~ In LBRACE line /\ ~ In SPACE line /\
        p = BugMissingWhitespace line) /\
  (src <> [] -> ~ In NL src -> ~ In LBRACE src -> ~ In SPACE src ->
   addExtraLabels dst src extraLabels = Panicked (BugMissingWhitespace src)).
Proof.
  rewrite addExtraLabels_refines. split; [|split].
  - intros line Hin Hb Hs.
    destruct (injectLines_malformed (bytes_of extraLabels) _ line Hin) as [p Hp].
    + now apply injectLine_None.
    + exists p. now rewrite Hp.
  - intros p Hp.
    destruct (injectLines _ _) as [outs|q] eqn:E; [discriminate|].
    injection Hp as ->.
    destruct (injectLines_Panicked _ _ _ E) as (line & Hin & Hl & ->).
    apply injectLine_None in Hl. exists line. tauto.
  - intros Hne Hnl Hb Hs. rewrite splitLines_unterminated by assumption.
    cbn [injectLines].
    now rewrite (proj2 (injectLine_None _ src) (conj Hb Hs)).
Qed.

Lemma addExtraLabels_panics_iff_malformed_witness :
  panics (addExtraLabels [] (line_foo ++ NL :: bytes_of "foo") label_b2) /\
  addExtraLabels [] (bytes_of "foo") label_b2 =
  Panicked (BugMissingWhitespace (bytes_of "foo")).
Proof.
  split.
  - apply (proj1 (addExtraLabels_panics_iff_malformed
                    [] (line_foo ++ NL :: bytes_of "foo") label_b2)
                 (bytes_of "foo")).
    + vm_compute. tauto.
    + vm_compute. intuition discriminate.
    + vm_compute. intuition discriminate.
  - apply (proj2 (proj2 (addExtraLabels_panics_iff_malformed
                           [] (bytes_of "foo") label_b2))).
    + discriminate.
    + vm_compute. intuition discriminate.
    + vm_compute. intuition discriminate.
    + vm_compute. intuition discriminate.
Defined.

(** C9. A block with an empty line panics: a block with two consecutive
    newlines, and a block that starts with a newline, among them the
    block that is one newline. *)
Theorem addExtraLabels_empty_line_panics
    (dst : bytes) (extraLabels : string) :
  (forall a b, panics (addExtraLabels dst (a ++ NL :: NL :: b) extraLabels)) /\
  (forall b, panics (addExtraLabels dst (NL :: b) extraLabels)) /\
  addExtraLabels dst [NL] extraLabels = Panicked (BugMissingWhitespace []).
Proof.
  assert (forall src, In [] (splitLines src) ->
                      panics (addExtraLabels dst src extraLabels)) as Hempty.
  { intros src Hin. rewrite addExtraLabels_refines.
    destruct (injectLines_malformed (bytes_of extraLabels) _ [] Hin) as [p Hp];
      [reflexivity|].
    exists p. now rewrite Hp. }
  split; [|split].
  - intros a b. apply Hempty.
    assert (In [] (tl (splitLines (a ++ NL :: NL :: b)))) as Htl.
    { induction a as [|x a IH]; cbn [app splitLines].
      - rewrite !eqb_refl. now left.
      - destruct (Byte.eqb x NL).
        + cbn [tl]. destruct (splitLines (a ++ NL :: NL :: b)); [destruct IH|].
          now right.
        + destruct (splitLines (a ++ NL :: NL :: b)); [destruct IH|].
          exact IH. }
    destruct (splitLines (a ++ NL :: NL :: b)); [destruct Htl | now right].
  - intros b. apply Hempty. cbn [splitLines]. rewrite eqb_refl. now left.
  - rewrite addExtraLabels_refines. reflexivity.
Qed.

(** C10. [addExtraLabels] only appends to [dst]: its result is [dst]
    followed by what it returns for an empty destination, and it panics
    for [dst] exactly when it does for the empty one, on the same line. *)
Theorem addExtraLabels_appends (dst src : bytes) (extraLabels : string) :
  addExtraLabels dst src extraLabels =
  result_map (fun out => dst ++ out) (addExtraLabels [] src extraLabels).
Proof.
  rewrite (addExtraLabels_refines dst), (addExtraLabels_refines []).
  now destruct (injectLines _ _).
Qed.

(** ** Lines in, lines out *)

Lemma splitLines_newlineFree (src : bytes) :
  Forall newlineFree (splitLines src).
Proof.
  induction src as [|x t IH]; cbn [splitLines]; [constructor|].
  destruct (Byte.eqb x NL) eqn:E.
  - constructor; [intros [] | exact IH].
  - apply Byte.eqb_false in E.
    destruct (splitLines t) as [|l ls].
    + constructor; [|constructor]. intros [H | []]. congruence.
    + inversion IH as [|? ? Hl Hls]; subst. constructor; [|exact Hls].
      intros [H | H]; [congruence | now apply Hl].
Qed.

Lemma joinLines_cons (l : bytes) (ls : list bytes) :
  joinLines (l :: ls) = l ++ NL :: joinLines ls.
Proof. unfold joinLines. cbn. now rewrite <- app_assoc. Qed.

Lemma splitLines_joinLines (ls : list bytes) :
  Forall newlineFree ls -> splitLines (joinLines ls) = ls.
Proof.
  induction 1 as [|l ls Hl _ IH]; [reflexivity|].
  now rewrite joinLines_cons, splitLines_terminated, IH.
Qed.

Lemma injectLine_newlineFree (extra line o : bytes) :
  newlineFree extra -> newlineFree line ->
  injectLine extra line = Some o -> newlineFree o.
Proof.
  unfold newlineFree. intros He Hl Ho.
  assert (NL <> LBRACE /\ NL <> RBRACE /\ NL <> COMMA /\ NL <> SPACE)
    as (H1 & H2 & H3 & H4) by (repeat split; discriminate).
  destruct (in_dec Byte.byte_eq_dec LBRACE line) as [Hb | Hb].
  - destruct (first_occurrence _ _ Hb) as (a & b & -> & Ha).
    rewrite injectLine_labelled in Ho by exact Ha. injection Ho as <-.
    in_norm. intuition congruence.
  - destruct (in_dec Byte.byte_eq_dec SPACE line) as [Hs | Hs].
    + destruct (last_occurrence _ _ Hs) as (a & b & -> & Ha).
      rewrite injectLine_bare in Ho by assumption. injection Ho as <-.
      in_norm. intuition congruence.
    + now rewrite (proj2 (injectLine_None extra line) (conj Hb Hs)) in Ho.
Qed.
(** C4 as stated, for every fragment, fails when the fragment has a
    newline byte in it: injecting a="<newline>" into the one-line block
    foo 5, whose line is well formed, gives a block of two lines. *)
Lemma addExtraLabels_line_count_counterexample :
  Forall wellFormedLine (splitLines line_foo) /\
  exists out,
    addExtraLabels [] line_foo label_with_newline = Done out /\
    List.length (splitLines line_foo) = 1%nat /\
    List.length (splitLines out) = 2%nat.
Proof.
  split.
  - replace (splitLines line_foo) with [line_foo] by reflexivity.
    constructor; [|constructor]. right. vm_compute. tauto.
  - exists (bytes_of ("foo{" ++ label_with_newline ++ "} 5")%string ++ [NL]).
    split; [reflexivity|]. split; reflexivity.
Qed.

(** C4, amended. For every block whose lines all have a ['{'] or a space,
    and every extra-labels fragment with no newline byte in it, the label
    injector returns a block with as many lines as the input, the i-th
    one being the i-th input line rewritten, and every line of the output
    ends with a newline; the last input line may lack its terminator. *)
Theorem addExtraLabels_line_count (src : bytes) (extraLabels : string) :
  Forall wellFormedLine (splitLines src) ->
  newlineFree (bytes_of extraLabels) ->
  exists out,
    addExtraLabels [] src extraLabels = Done out /\
    List.length (splitLines out) = List.length (splitLines src) /\
    Forall2 (fun line o => injectLine (bytes_of extraLabels) line = Some o)
            (splitLines src) (splitLines out) /\
    joinLines (splitLines out) = out.
Proof.
  intros Hwf Hextra.
  destruct (injectLines_Done (bytes_of extraLabels) _ Hwf) as (outs & E & Hall).
  exists (joinLines outs). rewrite addExtraLabels_refines, E. cbn.
  assert (Forall newlineFree outs) as Hfree.
  { pose proof (splitLines_newlineFree src) as Hsrc.
    clear E Hwf. induction Hall as [|l o ls os Ho _ IH]; [constructor|].
    inversion Hsrc; subst.
    constructor; [|now apply IH].
    now apply (injectLine_newlineFree (bytes_of extraLabels) l). }
  rewrite (splitLines_joinLines _ Hfree).
  split; [reflexivity|]. split; [|split; [exact Hall | reflexivity]].
  symmetry. exact (Forall2_length Hall).
Qed.

Lemma addExtraLabels_line_count_witness :
  exists out,
    addExtraLabels [] (line_foo_a1 ++ NL :: line_foo) label_b2 = Done out /\
    List.length (splitLines out) =
    List.length (splitLines (line_foo_a1 ++ NL :: line_foo)) /\
    Forall2 (fun line o => injectLine (bytes_of label_b2) line = Some o)
            (splitLines (line_foo_a1 ++ NL :: line_foo)) (splitLines out) /\
    joinLines (splitLines out) = out.
Proof.
  apply (addExtraLabels_line_count (line_foo_a1 ++ NL :: line_foo) label_b2).
  - replace (splitLines (line_foo_a1 ++ NL :: line_foo))
      with [line_foo_a1; line_foo] by reflexivity.
    constructor; [|constructor; [|constructor]].
    + left. vm_compute. tauto.
    + right. vm_compute. tauto.
  - vm_compute. intuition discriminate.
Defined.

(** C5. Injecting twice into a line with no ['{'] puts the second
    fragment before the first one inside one label set, for every first
    fragment with no newline byte in it; with b="2" and then c="3" the
    line foo 5 becomes foo{c="3",b="2"} 5 and a newline. *)
Theorem addExtraLabels_twice :
  (forall (name value : bytes) (first second : string),
      newlineFree (name ++ SPACE :: value) ->
      ~ In LBRACE (name ++ SPACE :: value) -> ~ In SPACE value ->
      newlineFree (bytes_of first) ->
      exists once,
        addExtraLabels [] (name ++ SPACE :: value) first = Done once /\
        addExtraLabels [] once second =
        Done (name ++ [LBRACE] ++ bytes_of second ++ [COMMA]
                   ++ bytes_of first ++ [RBRACE] ++ [SPACE] ++ value ++ [NL])) /\
  (exists once,
      addExtraLabels [] line_foo label_b2 = Done once /\
      addExtraLabels [] once label_c3 =
      Done (bytes_of ("foo{c=" ++ quoted "3" ++ ",b=" ++ quoted "2" ++ "} 5")%string
            ++ [NL])).
Proof.
  split.
  2:{ exists (bytes_of ("foo{b=" ++ quoted "2" ++ "} 5")%string ++ [NL]).
      split; reflexivity. }
  intros name value first second Hnl Hb Hs Hfirst.
  eexists. split.
  - rewrite addExtraLabels_last_line; [|now destruct name|exact Hnl].
    rewrite injectLine_bare by assumption. reflexivity.
  - cbn [app].
    replace (name ++ LBRACE :: bytes_of first ++ RBRACE :: SPACE :: value ++ [NL])
      with ((name ++ LBRACE :: bytes_of first ++ RBRACE :: SPACE :: value)
              ++ NL :: [])
      by now app_norm.
    unfold newlineFree in *.
    rewrite addExtraLabels_line.
    + rewrite injectLine_labelled.
      * rewrite addExtraLabels_step. cbn. now app_norm.
      * rewrite in_app_iff in Hb. tauto.
    + in_norm.
      assert (LBRACE <> NL /\ RBRACE <> NL) as [? ?] by (split; discriminate).
      tauto.
Qed.

Lemma addExtraLabels_twice_witness :
  exists once,
    addExtraLabels [] (bytes_of "foo" ++ SPACE :: bytes_of "5") label_b2
    = Done once /\
    addExtraLabels [] once label_c3 =
    Done (bytes_of "foo" ++ [LBRACE] ++ bytes_of label_c3 ++ [COMMA]
            ++ bytes_of label_b2 ++ [RBRACE] ++ [SPACE] ++ bytes_of "5" ++ [NL]).
Proof.
  apply (proj1 addExtraLabels_twice (bytes_of "foo") (bytes_of "5")
               label_b2 label_c3).
  - vm_compute. intuition discriminate.
  - vm_compute. intuition discriminate.
  - vm_compute. intuition discriminate.
  - vm_compute. intuition discriminate.
Defined.

(** ** The push loop *)

Lemma quot_100_2xx (StatusCode : Z) :
  Z.quot StatusCode 100 = 2 <-> is2xx StatusCode.
Proof.
  unfold is2xx. split.
  - intros H. pose proof (Z.quot_rem' StatusCode 100) as Hqr.
    rewrite H in Hqr.
    pose proof (Z.rem_bound_abs StatusCode 100) as Habs.
    assert (0 <= StatusCode) as Hpos by lia.
    pose proof (Z.rem_bound_pos StatusCode 100 Hpos). lia.
  - intros H. symmetry. apply (Z.quot_unique StatusCode 100 2 (StatusCode - 200)); lia.
Qed.

Lemma postBodies_app (evs evs' : list event) :
  postBodies (evs ++ evs') = postBodies evs ++ postBodies evs'.
Proof.
  induction evs as [|e evs IH]; [reflexivity|].
  destruct e; cbn; now rewrite IH.
Qed.

Lemma postBodies_deliver (url : string) (body : bytes) (r : postResult) :
  postBodies (deliver url body r) = [body].
Proof.
  unfold deliver. destruct r as [err | code]; [reflexivity|].
  now destruct (negb _).
Qed.

Lemma preparePayload_wellFormed (extraLabels : string) (st : pushState)
      (snapshot : bytes) :
  Forall wellFormedLine (splitLines snapshot) ->
  exists st', preparePayload extraLabels st snapshot = Done st'.
Proof.
  intros Hwf. unfold preparePayload. cbn [app].
  destruct (0 <? len (bytes_of extraLabels)); [|now eexists].
  rewrite addExtraLabels_refines.
  destruct (injectLines_Done (bytes_of extraLabels) _ Hwf) as (outs & -> & _).
  cbn. now eexists.
Qed.

(** C6. With [interval <= 0], [initPush] panics on the interval check
    whatever the extra labels are: no goroutine is started, and the run
    has no event at all, no snapshot and no POST, whatever ticks would
    have come. With [0 < interval] and extra labels that [validateTags]
    accepts, it does not panic and starts the goroutine. *)
Theorem initPush_interval_check
    (validateTags : string -> option string)
    (pushURL : string) (extraLabels : string) :
  (forall interval,
      interval <= 0 ->
      initPush validateTags pushURL interval extraLabels
      = Panicked (BugInterval interval) /\
      forall ticks,
        runPush validateTags pushURL interval extraLabels ticks
        = ([], Some (BugInterval interval))) /\
  (forall interval,
      0 < interval -> validateTags extraLabels = None ->
      initPush validateTags pushURL interval extraLabels
      = Done (Goroutine pushURL interval extraLabels)).
Proof.
  split.
  - intros interval Hle. unfold runPush, initPush.
    apply Z.leb_le in Hle. rewrite Hle. split; [reflexivity|]. now intros.
  - intros interval Hpos Hvalid. unfold initPush.
    apply Z.leb_gt in Hpos. now rewrite Hpos, Hvalid.
Qed.

Lemma initPush_interval_check_witness :
  (initPush (fun _ => None) "http://host/push" 0 label_b2
   = Panicked (BugInterval 0) /\
   forall ticks,
     runPush (fun _ => None) "http://host/push" 0 label_b2 ticks
     = ([], Some (BugInterval 0))) /\
  initPush (fun _ => None) "http://host/push" 10 label_b2
  = Done (Goroutine "http://host/push" 10 label_b2).
Proof.
  split.
  - apply (proj1 (initPush_interval_check (fun _ => None)
                    "http://host/push" label_b2) 0). lia.
  - apply (proj2 (initPush_interval_check (fun _ => None)
                    "http://host/push" label_b2) 10); [lia | reflexivity].
Defined.

(** C7. With the empty string for extra labels, every tick POSTs the
    bytes that the snapshot producer wrote, unchanged, and leaves the
    buffer of [addExtraLabels] as it was; no tick panics, also for a
    snapshot on which [addExtraLabels] would. *)
Theorem pushLoop_without_extra_labels
    (url : string) (d : Duration) (st : pushState) (ticks : list tickInput) :
  let g := Goroutine url d "" in
  (forall t,
      pushTick g st t =
      (EvWriteMetrics :: deliver url (written t) (posted t),
       Done (PushState (written t) (tmpBuf st)))) /\
  postBodies (fst (pushLoop g st ticks)) = map written ticks /\
  snd (pushLoop g st ticks) = None.
Proof.
  cbv zeta.
  assert (forall st t,
             pushTick (Goroutine url d "") st t =
             (EvWriteMetrics :: deliver url (written t) (posted t),
              Done (PushState (written t) (tmpBuf st)))) as Htick
      by reflexivity.
  split; [apply Htick|].
  revert st. induction ticks as [|t ticks IH]; intros st; [now split|].
  cbn [pushLoop map]. rewrite Htick.
  specialize (IH (PushState (written t) (tmpBuf st))).
  destruct (pushLoop _ _ ticks) as [evs r]. cbn [fst snd] in *.
  destruct IH as [IH1 IH2]. split; [|exact IH2].
  change (postBodies ((EvWriteMetrics :: deliver url (written t) (posted t)) ++ evs)
          = written t :: map written ticks).
  rewrite postBodies_app. cbn [postBodies]. now rewrite postBodies_deliver, IH1.
Qed.

(** C8. A tick whose POST fails, by a transport error or by a response
    outside 2xx, makes one POST, logs the failure (with the status code
    in the second case) and is followed by the rest of the loop; every
    tick that gets to the POST makes exactly one, whatever the outcome;
    and a loop whose snapshots are all well formed makes one POST per
    tick and does not stop, whatever the outcomes of the POSTs are. *)
Theorem pushLoop_survives_failed_delivery
    (g : pusher) (st : pushState) (ticks : list tickInput) :
  (forall t st',
      preparePayload (extraLabels g) st (written t) = Done st' ->
      snd (pushTick g st t) = Done st' /\
      postBodies (fst (pushTick g st t)) = [bb st'] /\
      (forall err,
          posted t = PostError err ->
          pushLoop g st (t :: ticks) =
          ([EvWriteMetrics; EvPost (pushURL g) "text/plain" (bb st');
            EvLogCannotPush (pushURL g) err]
             ++ fst (pushLoop g st' ticks),
           snd (pushLoop g st' ticks))) /\
      (forall code,
          posted t = PostResponse code -> ~ is2xx code ->
          pushLoop g st (t :: ticks) =
          ([EvWriteMetrics; EvPost (pushURL g) "text/plain" (bb st');
            EvBodyClose; EvLogUnexpectedStatus (pushURL g) code]
             ++ fst (pushLoop g st' ticks),
           snd (pushLoop g st' ticks)))) /\
  (Forall (fun t => Forall wellFormedLine (splitLines (written t))) ticks ->
   snd (pushLoop g st ticks) = None /\
   List.length (postBodies (fst (pushLoop g st ticks))) = List.length ticks).
Proof.
  split.
  - intros t st' Hprep.
    assert (pushTick g st t =
            (EvWriteMetrics :: deliver (pushURL g) (bb st') (posted t), Done st'))
      as Htick by (unfold pushTick; now rewrite Hprep).
    rewrite Htick. cbn [fst snd postBodies]. rewrite postBodies_deliver.
    split; [reflexivity|]. split; [reflexivity|]. split.
    + intros err Hpost. cbn [pushLoop]. rewrite Htick, Hpost.
      now destruct (pushLoop g st' ticks).
    + intros code Hpost Hbad. cbn [pushLoop]. rewrite Htick, Hpost.
      unfold deliver.
      replace (Z.quot code 100 =? 2) with false.
      * now destruct (pushLoop g st' ticks).
      * symmetry. apply Z.eqb_neq. now rewrite quot_100_2xx.
  - intros Hwf. revert st.
    induction Hwf as [|t ticks' Ht _ IH]; intros st; [now split|].
    destruct (preparePayload_wellFormed (extraLabels g) st _ Ht) as [st' Hprep].
    cbn [pushLoop]. unfold pushTick. rewrite Hprep.
    specialize (IH st'). destruct (pushLoop g st' ticks') as [evs r].
    cbn [fst snd] in *. destruct IH as [IH1 IH2]. split; [exact IH1|].
    change (List.length
              (postBodies ((EvWriteMetrics
                              :: deliver (pushURL g) (bb st') (posted t)) ++ evs))
            = S (List.length ticks')).
    rewrite postBodies_app. cbn [postBodies].
    now rewrite postBodies_deliver, length_app, IH2.
Qed.

Lemma pushLoop_survives_failed_delivery_witness :
  pushLoop push_b2 (PushState [] [])
           [Tick line_foo (PostResponse 500);
            Tick line_foo (PostError "connection refused")] =
  ([EvWriteMetrics; EvPost "http://host/push" "text/plain" payload_foo_b2;
    EvBodyClose; EvLogUnexpectedStatus "http://host/push" 500]
     ++ fst (pushLoop push_b2 (PushState payload_foo_b2 payload_foo_b2)
                      [Tick line_foo (PostError "connection refused")]),
   snd (pushLoop push_b2 (PushState payload_foo_b2 payload_foo_b2)
                 [Tick line_foo (PostError "connection refused")])).
Proof.
  apply (proj2 (proj2 (proj2
           (proj1 (pushLoop_survives_failed_delivery
                     push_b2 (PushState [] [])
                     [Tick line_foo (PostError "connection refused")])
                  (Tick line_foo (PostResponse 500))
                  (PushState payload_foo_b2 payload_foo_b2)
                  eq_refl))) 500).
  - reflexivity.
  - unfold is2xx. lia.
Defined.

(** ** Further properties of the label injector *)

Lemma splitLines_nil_inv (src : bytes) : splitLines src = [] -> src = [].
Proof.
  destruct src as [|x t]; [reflexivity|]. cbn [splitLines].
  destruct (Byte.eqb x NL); [discriminate|].
  destruct (splitLines t); discriminate.
Qed.

Lemma splitLines_app_terminated (a b : bytes) :
  splitLines ((a ++ [NL]) ++ b) = splitLines (a ++ [NL]) ++ splitLines b.
Proof.
  induction a as [|x a IH]; cbn [app splitLines].
  - now rewrite eqb_refl.
  - destruct (Byte.eqb x NL); [now rewrite IH|].
    rewrite IH. destruct (splitLines (a ++ [NL])) as [|l ls] eqn:E.
    + apply splitLines_nil_inv in E. now destruct a.
    + reflexivity.
Qed.

Lemma splitLines_final_newline (s : bytes) (x : byte) :
  x <> NL -> splitLines ((s ++ [x]) ++ [NL]) = splitLines (s ++ [x]).
Proof.
  intros Hx. induction s as [|y s IH]; cbn [app splitLines].
  - now rewrite (eqb_neq x NL Hx), eqb_refl.
  - now rewrite IH.
Qed.

Lemma injectLines_app (extra : bytes) (l1 l2 : list bytes) :
  injectLines extra (l1 ++ l2) =
  result_bind (injectLines extra l1)
              (fun o1 => result_map (app o1) (injectLines extra l2)).
Proof.
  induction l1 as [|l l1 IH]; cbn [app injectLines result_bind].
  - now destruct (injectLines extra l2).
  - destruct (injectLine extra l); [|reflexivity]. rewrite IH.
    destruct (injectLines extra l1); [|reflexivity]. cbn.
    now destruct (injectLines extra l2).
Qed.

Lemma joinLines_app (l1 l2 : list bytes) :
  joinLines (l1 ++ l2) = joinLines l1 ++ joinLines l2.
Proof. unfold joinLines. now rewrite map_app, concat_app. Qed.

(** X1. The terminator of the last line makes no difference: a block
    whose last byte is not a newline gives the same result with a newline
    added at its end. *)
Theorem addExtraLabels_final_newline
    (dst s : bytes) (x : byte) (extraLabels : string) :
  x <> NL ->
  addExtraLabels dst ((s ++ [x]) ++ [NL]) extraLabels =
  addExtraLabels dst (s ++ [x]) extraLabels.
Proof.
  intros Hx. rewrite !addExtraLabels_refines.
  now rewrite splitLines_final_newline.
Qed.

Lemma addExtraLabels_final_newline_witness :
  addExtraLabels [] ((bytes_of "foo " ++ ["5"%byte]) ++ [NL]) label_b2 =
  addExtraLabels [] (bytes_of "foo " ++ ["5"%byte]) label_b2.
Proof.
  apply (addExtraLabels_final_newline [] (bytes_of "foo ") "5"%byte label_b2).
  discriminate.
Defined.

(** X2. A block can be injected piece by piece when it is cut after a
    newline: the result for [a] followed by [b], where [a] is empty or
    ends with a newline, is the result for [b] appended to the result for
    [a], and the panic of [a] if [a] panics. *)
Theorem addExtraLabels_app
    (dst a b : bytes) (extraLabels : string) :
  terminated a ->
  addExtraLabels dst (a ++ b) extraLabels =
  result_bind (addExtraLabels dst a extraLabels)
              (fun dst' => addExtraLabels dst' b extraLabels).
Proof.
  intros [-> | [a' ->]].
  - cbn [app]. rewrite (addExtraLabels_step dst []). reflexivity.
  - rewrite (addExtraLabels_refines dst ((a' ++ [NL]) ++ b)).
    rewrite (addExtraLabels_refines dst (a' ++ [NL])).
    rewrite splitLines_app_terminated, injectLines_app.
    destruct (injectLines _ (splitLines (a' ++ [NL]))) as [o1|p];
      [|reflexivity].
    cbn [result_bind result_map]. rewrite addExtraLabels_refines.
    destruct (injectLines _ (splitLines b)); [|reflexivity].
    cbn [result_map]. now rewrite joinLines_app, app_assoc.
Qed.

Lemma addExtraLabels_app_witness :
  addExtraLabels [] ((line_foo ++ [NL]) ++ line_foo_a1) label_b2 =
  result_bind (addExtraLabels [] (line_foo ++ [NL]) label_b2)
              (fun dst' => addExtraLabels dst' line_foo_a1 label_b2).
Proof.
  apply (addExtraLabels_app [] (line_foo ++ [NL]) line_foo_a1 label_b2).
  right. exists line_foo. reflexivity.
Defined.

Lemma injectLines_panic_indep (e1 e2 : bytes) (ls : list bytes)
      (p : panic_value) :
  injectLines e1 ls = Panicked p -> injectLines e2 ls = Panicked p.
Proof.
  revert p. induction ls as [|l ls IH]; cbn [injectLines]; [discriminate|].
  intros p.
  destruct (injectLine e1 l) as [o1|] eqn:E1.
  - destruct (injectLine e2 l) as [o2|] eqn:E2.
    + destruct (injectLines e1 ls); cbn; [discriminate|].
      intros [= ->]. now rewrite (IH p eq_refl).
    + apply injectLine_None in E2.
      rewrite (proj2 (injectLine_None e1 l) E2) in E1. discriminate.
  - apply injectLine_None in E1.
    now rewrite (proj2 (injectLine_None e2 l) E1).
Qed.

(** X3. Whether [addExtraLabels] panics, and on which line, depends on
    the block only: not on the destination buffer and not on the extra
    labels. *)
Theorem addExtraLabels_panic_depends_on_block
    (dst1 dst2 src : bytes) (labels1 labels2 : string) (p : panic_value) :
  addExtraLabels dst1 src labels1 = Panicked p <->
  addExtraLabels dst2 src labels2 = Panicked p.
Proof.
  rewrite !addExtraLabels_refines.
  assert (forall d1 d2 e1 e2,
             result_map (fun ls => d1 ++ joinLines ls)
                        (injectLines e1 (splitLines src)) = Panicked p ->
             result_map (fun ls => d2 ++ joinLines ls)
                        (injectLines e2 (splitLines src)) = Panicked p) as H.
  { intros d1 d2 e1 e2 H1.
    destruct (injectLines e1 (splitLines src)) as [o|q] eqn:E;
      [discriminate|].
    injection H1 as ->.
    now rewrite (injectLines_panic_indep e1 e2 _ _ E). }
  split; apply H.
Qed.

Lemma injectLine_len (extra line o : bytes) :
  injectLine extra line = Some o ->
  len line + len extra + 1 <= len o <= len line + len extra + 2.
Proof.
  intros Ho.
  destruct (in_dec Byte.byte_eq_dec LBRACE line) as [Hb | Hb].
  - destruct (first_occurrence _ _ Hb) as (a & b & -> & Ha).
    rewrite injectLine_labelled in Ho by exact Ha. injection Ho as <-.
    len_norm. lia.
  - destruct (in_dec Byte.byte_eq_dec SPACE line) as [Hs | Hs].
    + destruct (last_occurrence _ _ Hs) as (a & b & -> & Ha).
      rewrite injectLine_bare in Ho by assumption. injection Ho as <-.
      len_norm. lia.
    + now rewrite (proj2 (injectLine_None extra line) (conj Hb Hs)) in Ho.
Qed.

Lemma injectLines_len (extra : bytes) (ls outs : list bytes) :
  injectLines extra ls = Done outs ->
  len (joinLines ls) + Z.of_nat (List.length ls) * (len extra + 1)
  <= len (joinLines outs)
  <= len (joinLines ls) + Z.of_nat (List.length ls) * (len extra + 2).
Proof.
  revert outs. induction ls as [|l ls IH]; cbn [injectLines]; intros outs.
  - intros [= <-]. cbn. lia.
  - destruct (injectLine extra l) as [o|] eqn:Eo; [|discriminate].
    destruct (injectLines extra ls) as [os|]; cbn [result_map]; [|discriminate].
    intros [= <-]. specialize (IH os eq_refl).
    pose proof (injectLine_len _ _ _ Eo).
    rewrite !joinLines_cons, !len_app, !len_cons.
    cbn [List.length]. lia.
Qed.

Lemma joinLines_splitLines (src : bytes) :
  joinLines (splitLines src) = src \/ joinLines (splitLines src) = src ++ [NL].
Proof.
  induction src as [|x t IH]; [now left|]. cbn [splitLines].
  destruct (Byte.eqb x NL) eqn:E.
  - apply Byte.byte_dec_bl in E. subst x.
    rewrite joinLines_cons. cbn [app].
    destruct IH as [-> | ->]; [now left | now right].
  - destruct (splitLines t) as [|l ls] eqn:Et.
    + apply splitLines_nil_inv in Et. subst t. now right.
    + rewrite joinLines_cons in *. cbn [app].
      destruct IH as [-> | ->]; [now left | now right].
Qed.

(** X4. The result of [addExtraLabels] is the block grown by the extra
    labels and one or two bytes in every line, and by one byte when the
    last line had no terminator; the result for a block that is not empty
    is longer than the destination and the block together, also when the
    extra labels are empty. *)
Theorem addExtraLabels_length
    (dst src out : bytes) (extraLabels : string) :
  addExtraLabels dst src extraLabels = Done out ->
  let n := Z.of_nat (List.length (splitLines src)) in
  let e := len (bytes_of extraLabels) in
  len dst + len src + n * (e + 1) <= len out
  <= len dst + len src + n * (e + 2) + 1 /\
  (src <> [] -> len dst + len src < len out).
Proof.
  rewrite addExtraLabels_refines. intros Hout n e.
  destruct (injectLines (bytes_of extraLabels) (splitLines src))
    as [outs|] eqn:E; [|discriminate].
  injection Hout as <-.
  pose proof (injectLines_len _ _ _ E) as Hlen. fold n e in Hlen.
  assert (len src <= len (joinLines (splitLines src)) <= len src + 1) as Hsrc.
  { destruct (joinLines_splitLines src) as [-> | ->];
      [|rewrite len_app, len_cons, len_nil]; lia. }
  rewrite len_app. split; [lia|].
  intros Hne.
  assert (1 <= n) as Hn.
  { subst n. destruct (splitLines src) eqn:Es; [|cbn [List.length]; lia].
    now apply splitLines_nil_inv in Es. }
  pose proof (len_nonneg (bytes_of extraLabels)). fold e in H. nia.
Qed.

Lemma addExtraLabels_length_witness :
  len [] + len line_foo
  + Z.of_nat (List.length (splitLines line_foo))
    * (len (bytes_of label_b2) + 1)
  <= len payload_foo_b2
  <= len [] + len line_foo
     + Z.of_nat (List.length (splitLines line_foo))
       * (len (bytes_of label_b2) + 2) + 1 /\
  (line_foo <> [] -> len [] + len line_foo < len payload_foo_b2).
Proof.
  apply (addExtraLabels_length [] line_foo payload_foo_b2 label_b2).
  reflexivity.
Defined.

Lemma injectLine_carries (extra line o : bytes) :
  injectLine extra line = Some o -> carriesLabels extra o.
Proof.
  intros Ho. unfold carriesLabels.
  destruct (in_dec Byte.byte_eq_dec LBRACE line) as [Hb | Hb].
  - destruct (first_occurrence _ _ Hb) as (a & b & -> & Ha).
    rewrite injectLine_labelled in Ho by exact Ha. injection Ho as <-.
    exists a, ([COMMA] ++ b). split; [now app_norm | exact Ha].
  - destruct (in_dec Byte.byte_eq_dec SPACE line) as [Hs | Hs].
    + destruct (last_occurrence _ _ Hs) as (a & b & -> & Ha).
      rewrite injectLine_bare in Ho by assumption. injection Ho as <-.
      exists a, ([RBRACE] ++ [SPACE] ++ b). split; [now app_norm|].
      rewrite in_app_iff in Hb. tauto.
    + now rewrite (proj2 (injectLine_None extra line) (conj Hb Hs)) in Ho.
Qed.

Lemma injectLines_outputs (extra : bytes) (ls outs : list bytes) :
  injectLines extra ls = Done outs ->
  Forall2 (fun l o => injectLine extra l = Some o) ls outs.
Proof.
  revert outs. induction ls as [|l ls IH]; cbn [injectLines]; intros outs.
  - intros [= <-]. constructor.
  - destruct (injectLine extra l) as [o|] eqn:Eo; [|discriminate].
    destruct (injectLines extra ls) as [os|]; cbn [result_map]; [|discriminate].
    intros [= <-]. constructor; [exact Eo | now apply IH].
Qed.

Lemma injectLines_newlineFree (extra : bytes) (ls outs : list bytes) :
  newlineFree extra -> Forall newlineFree ls ->
  injectLines extra ls = Done outs -> Forall newlineFree outs.
Proof.
  intros He Hls Hout. apply injectLines_outputs in Hout.
  induction Hout as [|l o ls os Ho _ IH]; [constructor|].
  inversion Hls; subst. constructor; [|now apply IH].
  now apply (injectLine_newlineFree extra l).
Qed.

(** X5. After [addExtraLabels] with extra labels that hold no newline
    byte, every line of the result has the extra labels right after its
    first ['{']: no line is left without them. *)
Theorem addExtraLabels_every_line_labelled
    (src out : bytes) (extraLabels : string) :
  newlineFree (bytes_of extraLabels) ->
  addExtraLabels [] src extraLabels = Done out ->
  Forall (carriesLabels (bytes_of extraLabels)) (splitLines out).
Proof.
  intros He. rewrite addExtraLabels_refines.
  destruct (injectLines (bytes_of extraLabels) (splitLines src))
    as [outs|] eqn:E; [|discriminate].
  intros [= <-]. cbn [app].
  rewrite splitLines_joinLines
    by (apply (injectLines_newlineFree _ _ _ He (splitLines_newlineFree src) E)).
  apply injectLines_outputs in E.
  induction E as [|l o ls os Ho _ IH]; constructor; [|exact IH].
  now apply (injectLine_carries _ l).
Qed.

Lemma addExtraLabels_every_line_labelled_witness :
  Forall (carriesLabels (bytes_of label_b2))
         (splitLines
            (bytes_of ("foo{b=" ++ quoted "2" ++ "} 5")%string ++ [NL])).
Proof.
  apply (addExtraLabels_every_line_labelled line_foo _ label_b2).
  - vm_compute. intuition discriminate.
  - reflexivity.
Defined.

Lemma bytes_of_append (s1 s2 : string) :
  bytes_of (s1 ++ s2)%string = bytes_of s1 ++ bytes_of s2.
Proof.
  unfold bytes_of, list_byte_of_string.
  induction s1 as [|c s1 IH]; [reflexivity|].
  cbn [String.append list_ascii_of_string map app]. now rewrite IH.
Qed.

Lemma injectLine_twice (e1 e2 line o : bytes) :
  injectLine e1 line = Some o ->
  injectLine e2 o = injectLine (e2 ++ [COMMA] ++ e1) line.
Proof.
  intros Ho.
  destruct (in_dec Byte.byte_eq_dec LBRACE line) as [Hb | Hb].
  - destruct (first_occurrence _ _ Hb) as (a & b & -> & Ha).
    rewrite injectLine_labelled in Ho by exact Ha. injection Ho as <-.
    cbn [app]. rewrite !injectLine_labelled by exact Ha. now app_norm.
  - destruct (in_dec Byte.byte_eq_dec SPACE line) as [Hs | Hs].
    + destruct (last_occurrence _ _ Hs) as (a & b & -> & Ha).
      rewrite injectLine_bare in Ho by assumption. injection Ho as <-.
      cbn [app]. rewrite injectLine_bare by assumption.
      rewrite injectLine_labelled by (rewrite in_app_iff in Hb; tauto).
      now app_norm.
    + now rewrite (proj2 (injectLine_None e1 line) (conj Hb Hs)) in Ho.
Qed.

Lemma injectLines_twice (e1 e2 : bytes) (ls outs : list bytes) :
  injectLines e1 ls = Done outs ->
  injectLines e2 outs = injectLines (e2 ++ [COMMA] ++ e1) ls.
Proof.
  intros H. apply injectLines_outputs in H.
  induction H as [|l o ls os Ho _ IH]; [reflexivity|].
  cbn [injectLines]. rewrite (injectLine_twice e1 e2 l o Ho), IH.
  destruct (injectLine (e2 ++ [COMMA] ++ e1) l) eqn:E; [reflexivity|].
  apply injectLine_None in E.
  now rewrite (proj2 (injectLine_None e1 l) E) in Ho.
Qed.

(** X6. Injecting a second time is injecting once with both fragments:
    when the first injection, with extra labels that hold no newline byte,
    returns [once], injecting [second] into [once] gives what injecting
    [second,first] into the original block gives. *)
Theorem addExtraLabels_twice_is_joined
    (dst src once : bytes) (first second : string) :
  newlineFree (bytes_of first) ->
  addExtraLabels [] src first = Done once ->
  addExtraLabels dst once second =
  addExtraLabels dst src (second ++ "," ++ first)%string.
Proof.
  intros He. rewrite (addExtraLabels_refines [] src).
  destruct (injectLines (bytes_of first) (splitLines src))
    as [outs|] eqn:E; [|discriminate].
  intros [= <-]. cbn [app]. rewrite !addExtraLabels_refines.
  rewrite splitLines_joinLines
    by (apply (injectLines_newlineFree _ _ _ He (splitLines_newlineFree src) E)).
  rewrite (injectLines_twice _ (bytes_of second) _ _ E).
  now rewrite !bytes_of_append.
Qed.

Lemma addExtraLabels_twice_is_joined_witness :
  addExtraLabels [] (bytes_of ("foo{b=" ++ quoted "2" ++ "} 5")%string ++ [NL])
                 label_c3 =
  addExtraLabels [] line_foo (label_c3 ++ "," ++ label_b2)%string.
Proof.
  apply (addExtraLabels_twice_is_joined [] line_foo _ label_b2 label_c3).
  - vm_compute. intuition discriminate.
  - reflexivity.
Defined.

(** ** Further properties of initPush and of the push loop *)

(** X7. [initPush] starts the goroutine exactly when the interval is
    positive and [validateTags] accepts the extra labels, and the
    goroutine then has the arguments of the call. With a positive
    interval and extra labels that [validateTags] rejects, it panics with
    the labels and the error, and the run has no event. *)
Theorem initPush_starts_iff
    (validateTags : string -> option string)
    (url : string) (d : Duration) (labels : string) :
  (forall g,
      initPush validateTags url d labels = Done g <->
      0 < d /\ validateTags labels = None /\ g = Goroutine url d labels) /\
  (forall err,
      0 < d -> validateTags labels = Some err ->
      initPush validateTags url d labels
      = Panicked (BugExtraLabels labels err) /\
      forall ticks,
        runPush validateTags url d labels ticks
        = ([], Some (BugExtraLabels labels err))).
Proof.
  unfold runPush, initPush. split.
  - intros g. destruct (d <=? 0) eqn:Ed.
    + apply Z.leb_le in Ed. split; [discriminate | lia].
    + apply Z.leb_gt in Ed. destruct (validateTags labels) as [err|].
      * split; [discriminate | intros (_ & [=] & _)].
      * split; [intros [= <-]; tauto | intros (_ & _ & ->); reflexivity].
  - intros err Hd Hv. apply Z.leb_gt in Hd. rewrite Hd, Hv. now split.
Qed.

Lemma initPush_starts_iff_witness :
  initPush (fun _ => Some "missing `=`"%string) "http://host/push" 10 "b"
  = Panicked (BugExtraLabels "b" "missing `=`") /\
  forall ticks,
    runPush (fun _ => Some "missing `=`"%string) "http://host/push" 10 "b" ticks
    = ([], Some (BugExtraLabels "b" "missing `=`")).
Proof.
  apply (proj2 (initPush_starts_iff (fun _ => Some "missing `=`"%string)
                                    "http://host/push" 10 "b")).
  - lia.
  - reflexivity.
Defined.

Lemma pushTick_any_state (g : pusher) (st1 st2 : pushState) (t : tickInput) :
  fst (pushTick g st1 t) = fst (pushTick g st2 t) /\
  match snd (pushTick g st1 t), snd (pushTick g st2 t) with
  | Done _, Done _ => True
  | Panicked p1, Panicked p2 => p1 = p2
  | _, _ => False
  end.
Proof.
  unfold pushTick, preparePayload.
  replace (slice_to (tmpBuf st1) 0) with (@nil byte) by reflexivity.
  replace (slice_to (tmpBuf st2) 0) with (@nil byte) by reflexivity.
  destruct (0 <? len (bytes_of (extraLabels g))); [|now split].
  destruct (addExtraLabels [] ([] ++ written t) (extraLabels g)); now split.
Qed.

Lemma pushLoop_any_state
      (g : pusher) (st1 st2 : pushState) (ticks : list tickInput) :
  pushLoop g st1 ticks = pushLoop g st2 ticks.
Proof.
  revert st1 st2. induction ticks as [|t ticks IH]; intros st1 st2;
    [reflexivity|].
  cbn [pushLoop]. destruct (pushTick_any_state g st1 st2 t) as [Hev Hres].
  destruct (pushTick g st1 t) as [ev1 [st1'|p1]],
           (pushTick g st2 t) as [ev2 [st2'|p2]];
    cbn [fst snd] in *; subst; try contradiction; [|reflexivity].
  now rewrite (IH st1' st2').
Qed.

(** X8. The buffers that the goroutine reuses carry nothing from one tick
    to the next: the bodies that the loop POSTs are, tick by tick, the
    payloads of the snapshots of these ticks (the snapshot itself without
    extra labels, the injected snapshot with them) up to the first
    snapshot on which the injection panics, whatever [bb] and [tmpBuf]
    hold when the loop starts and whatever the outcomes of the POSTs. *)
Theorem pushLoop_bodies
    (g : pusher) (st : pushState) (ticks : list tickInput) :
  postBodies (fst (pushLoop g st ticks)) =
  payloadsUntilPanic (extraLabels g) (map written ticks).
Proof.
  revert st. induction ticks as [|t ticks IH]; intros st; [reflexivity|].
  cbn [pushLoop map payloadsUntilPanic]. unfold pushTick, preparePayload, payloadOf.
  replace (slice_to (tmpBuf st) 0) with (@nil byte) by reflexivity.
  cbn [app].
  destruct (0 <? len (bytes_of (extraLabels g))).
  - destruct (addExtraLabels [] (written t) (extraLabels g)) as [out|p];
      [|reflexivity].
    specialize (IH (PushState out out)).
    destruct (pushLoop g (PushState out out) ticks) as [evs r].
    cbn [fst snd bb] in *.
    change (EvWriteMetrics :: ?d ++ evs) with ((EvWriteMetrics :: d) ++ evs).
    rewrite postBodies_app. cbn [postBodies].
    now rewrite postBodies_deliver, IH.
  - specialize (IH (PushState (written t) (tmpBuf st))).
    destruct (pushLoop g (PushState (written t) (tmpBuf st)) ticks) as [evs r].
    cbn [fst snd bb] in *.
    change (EvWriteMetrics :: ?d ++ evs) with ((EvWriteMetrics :: d) ++ evs).
    rewrite postBodies_app. cbn [postBodies].
    now rewrite postBodies_deliver, IH.
Qed.

Lemma pushTick_malformed (g : pusher) (st : pushState) (t : tickInput)
      (line : bytes) :
  0 < len (bytes_of (extraLabels g)) ->
  In line (splitLines (written t)) -> ~ In LBRACE line -> ~ In SPACE line ->
  exists p, pushTick g st t = ([EvWriteMetrics], Panicked p).
Proof.
  intros Hlen Hin Hb Hs. unfold pushTick, preparePayload.
  apply Z.ltb_lt in Hlen. rewrite Hlen. cbn [app].
  rewrite addExtraLabels_refines.
  destruct (injectLines_malformed (bytes_of (extraLabels g)) _ line Hin)
    as [p ->]; [now apply injectLine_None|].
  now exists p.
Qed.

(** X9. A snapshot with a line that has neither ['{'] nor a space ends
    the goroutine when extra labels are set: the tick panics after the
    snapshot is taken and before any POST, and the ticks after it add
    nothing to what the loop does. *)
Theorem pushLoop_malformed_snapshot_stops
    (g : pusher) (st : pushState) (t : tickInput) (line : bytes)
    (before after : list tickInput) :
  0 < len (bytes_of (extraLabels g)) ->
  In line (splitLines (written t)) -> ~ In LBRACE line -> ~ In SPACE line ->
  postBodies (fst (pushTick g st t)) = [] /\
  (exists p, snd (pushLoop g st (before ++ t :: after)) = Some p) /\
  pushLoop g st (before ++ t :: after) = pushLoop g st (before ++ [t]).
Proof.
  intros Hlen Hin Hb Hs.
  pose proof (fun st => pushTick_malformed g st t line Hlen Hin Hb Hs) as Ht.
  split; [destruct (Ht st) as [p ->]; reflexivity|].
  revert st. induction before as [|b before IH]; intros st; cbn [app pushLoop].
  - destruct (Ht st) as [p ->]. split; [now exists p | reflexivity].
  - destruct (pushTick g st b) as [evs [st'|q]].
    + destruct (IH st') as [[p Hp] Heq]. rewrite Heq.
      destruct (pushLoop g st' (before ++ [t])) as [evs' r] eqn:E.
      rewrite Heq in Hp. cbn [snd] in *. split; [now exists p | reflexivity].
    + split; [now exists q | reflexivity].
Qed.

Lemma pushLoop_malformed_snapshot_stops_witness :
  postBodies (fst (pushTick push_b2 (PushState [] [])
                            (Tick (bytes_of "foo") (PostResponse 200)))) = [] /\
  (exists p,
      snd (pushLoop push_b2 (PushState [] [])
             ([Tick line_foo (PostResponse 200)]
                ++ Tick (bytes_of "foo") (PostResponse 200)
                :: [Tick line_foo (PostResponse 200)])) = Some p) /\
  pushLoop push_b2 (PushState [] [])
           ([Tick line_foo (PostResponse 200)]
              ++ Tick (bytes_of "foo") (PostResponse 200)
              :: [Tick line_foo (PostResponse 200)]) =
  pushLoop push_b2 (PushState [] [])
           ([Tick line_foo (PostResponse 200)]
              ++ [Tick (bytes_of "foo") (PostResponse 200)]).
Proof.
  apply (pushLoop_malformed_snapshot_stops
           push_b2 (PushState [] [])
           (Tick (bytes_of "foo") (PostResponse 200)) (bytes_of "foo")
           [Tick line_foo (PostResponse 200)]
           [Tick line_foo (PostResponse 200)]).
  - reflexivity.
  - vm_compute. tauto.
  - vm_compute. intuition discriminate.
  - vm_compute. intuition discriminate.
Defined.

Lemma deliver_postsOnlyTo (url : string) (body : bytes) (r : postResult) :
  Forall (postsOnlyTo url) (deliver url body r).
Proof.
  unfold deliver. destruct r as [err | code]; [|destruct (negb _)];
    repeat constructor.
Qed.

Lemma pushTick_cases (g : pusher) (st : pushState) (t : tickInput) :
  (exists p, pushTick g st t = ([EvWriteMetrics], Panicked p)) \/
  (exists st',
      pushTick g st t =
      (EvWriteMetrics :: deliver (pushURL g) (bb st') (posted t), Done st')).
Proof.
  unfold pushTick.
  destruct (preparePayload (extraLabels g) st (written t)) as [st'|p];
    [right; now exists st' | left; now exists p].
Qed.

(** X10. Every POST of the loop goes to the URL of the target as
    text/plain; the loop makes at most one POST per tick, and it makes
    one for every tick exactly when it did not panic. *)
Theorem pushLoop_posts
    (g : pusher) (st : pushState) (ticks : list tickInput) :
  Forall (postsOnlyTo (pushURL g)) (fst (pushLoop g st ticks)) /\
  (List.length (postBodies (fst (pushLoop g st ticks)))
   <= List.length ticks)%nat /\
  (snd (pushLoop g st ticks) = None <->
   List.length (postBodies (fst (pushLoop g st ticks))) = List.length ticks).
Proof.
  revert st. induction ticks as [|t ticks IH]; intros st.
  - cbn. split; [constructor | split; [lia | tauto]].
  - cbn [pushLoop List.length].
    destruct (pushTick_cases g st t) as [[p ->] | [st' ->]].
    + cbn. split; [repeat constructor | split; [lia|]].
      split; [discriminate | lia].
    + destruct (IH st') as (Hall & Hle & Hiff).
      destruct (pushLoop g st' ticks) as [evs r]. cbn [fst snd] in *.
      rewrite postBodies_app. cbn [postBodies].
      rewrite postBodies_deliver, length_app. cbn [List.length].
      split; [|split; [lia|]].
      * apply Forall_app. split; [|exact Hall].
        constructor; [exact I | apply deliver_postsOnlyTo].
      * rewrite Hiff. lia.
Qed.

(** X11. A tick writes to the log exactly when its POST failed, by a
    transport error or by a status code outside 200..299 (Go's integer
    division makes [StatusCode/100 == 2] exactly that range, also for
    zero and negative codes); the body of the response is closed exactly
    when there is a response, whatever its status. *)
Theorem deliver_logs_iff_failure
    (url : string) (body : bytes) (r : postResult) :
  (existsb isLog (deliver url body r) = true <->
   (exists err, r = PostError err) \/
   (exists code, r = PostResponse code /\ ~ is2xx code)) /\
  (In EvBodyClose (deliver url body r) <-> exists code, r = PostResponse code).
Proof.
  unfold deliver. destruct r as [err | code].
  - cbn. split.
    + split; [intros _; left; now exists err | reflexivity].
    + split; [intros [[=] | [[=] | []]] | intros [code [=]]].
  - destruct (Z.quot code 100 =? 2) eqn:E; cbn.
    + apply Z.eqb_eq, quot_100_2xx in E. split.
      * split; [discriminate|].
        intros [[err [=]] | [c [[= <-] Hc]]]. contradiction.
      * split; [intros _; now exists code | tauto].
    + apply Z.eqb_neq in E. rewrite quot_100_2xx in E. split.
      * split; [intros _; right; now exists code | reflexivity].
      * split; [intros _; now exists code | tauto].
Qed.

Lemma initPush_accepts (validateTags : string -> option string)
      (url : string) (d : Duration) (labels : string) :
  0 < d -> validateTags labels = None ->
  initPush validateTags url d labels = Done (Goroutine url d labels).
Proof.
  intros Hd Hv. unfold initPush. apply Z.leb_gt in Hd. now rewrite Hd, Hv.
Qed.

Lemma addExtraLabels_concat_Done (a b oa ob : bytes) (labels : string) :
  terminated a ->
  addExtraLabels [] a labels = Done oa ->
  addExtraLabels [] b labels = Done ob ->
  addExtraLabels [] (a ++ b) labels = Done (oa ++ ob).
Proof.
  intros [-> | [a' ->]] Ha Hb.
  - rewrite addExtraLabels_step in Ha. cbn in Ha. injection Ha as <-.
    exact Hb.
  - rewrite addExtraLabels_refines in Ha, Hb |- *.
    rewrite splitLines_app_terminated, injectLines_app.
    destruct (injectLines _ (splitLines (a' ++ [NL]))); [|discriminate].
    destruct (injectLines _ (splitLines b)); [|discriminate].
    cbn in *. injection Ha as <-. injection Hb as <-.
    now rewrite joinLines_app.
Qed.

(** X12. What the three exported functions push, for a configuration
    that [initPush] accepts with extra labels that are not empty: when
    the default set's output is empty or ends with a newline, [InitPush]
    with [pushProcessMetrics] POSTs the injected output of the set
    followed by the injected process metrics, and without it the
    injected output of the set alone, as [InitPush] of the default set
    does; [InitPushProcessMetrics] POSTs the injected process metrics
    alone. *)
Theorem entry_points_payload
    (World MetricSet : Type)
    (WritePrometheus : MetricSet -> World -> bytes)
    (WriteProcessMetrics : World -> bytes)
    (defaultSet : MetricSet)
    (validateTags : string -> option string)
    (url : string) (d : Duration) (labels : string)
    (w : World) (r : postResult) (set' process' : bytes) :
  0 < d -> validateTags labels = None -> 0 < len (bytes_of labels) ->
  terminated (WritePrometheus defaultSet w) ->
  addExtraLabels [] (WritePrometheus defaultSet w) labels = Done set' ->
  addExtraLabels [] (WriteProcessMetrics w) labels = Done process' ->
  let run := fun target =>
    postBodies (fst (runTarget World target [(w, r)])) in
  run (InitPush World MetricSet WritePrometheus WriteProcessMetrics
                defaultSet validateTags url d labels true)
  = [set' ++ process'] /\
  run (InitPush World MetricSet WritePrometheus WriteProcessMetrics
                defaultSet validateTags url d labels false)
  = [set'] /\
  run (Set_InitPush World MetricSet WritePrometheus validateTags
                    defaultSet url d labels)
  = [set'] /\
  run (InitPushProcessMetrics World WriteProcessMetrics validateTags
                              url d labels)
  = [process'].
Proof.
  intros Hd Hv Hl Hterm Hset Hproc run. subst run.
  assert (forall snapshot out,
             addExtraLabels [] snapshot labels = Done out ->
             postBodies
               (fst (pushLoop (Goroutine url d labels) (PushState [] [])
                              [Tick snapshot r])) = [out]) as Hone.
  { intros snapshot out Hout. cbn [pushLoop]. unfold pushTick, preparePayload.
    cbn [extraLabels pushURL written posted tmpBuf app].
    apply Z.ltb_lt in Hl. rewrite Hl.
    replace (slice_to [] 0) with (@nil byte) by reflexivity.
    rewrite Hout. cbn [fst bb app]. rewrite app_nil_r.
    cbn [postBodies]. apply postBodies_deliver. }
  unfold runTarget, InitPush, Set_InitPush, InitPushProcessMetrics.
  cbn [fst snd map].
  rewrite (initPush_accepts validateTags url d labels Hd Hv).
  repeat split; apply Hone; try assumption.
  now apply addExtraLabels_concat_Done.
Qed.

Lemma entry_points_payload_witness :
  postBodies
    (fst (runTarget unit
            (InitPush unit unit demo_WritePrometheus demo_WriteProcessMetrics
                      tt accept_all "http://host/push" 10 label_b2 true)
            [(tt, PostResponse 200)]))
  = [payload_foo_b2 ++ payload_foo_a1_b2] /\
  postBodies
    (fst (runTarget unit
            (InitPush unit unit demo_WritePrometheus demo_WriteProcessMetrics
                      tt accept_all "http://host/push" 10 label_b2 false)
            [(tt, PostResponse 200)]))
  = [payload_foo_b2] /\
  postBodies
    (fst (runTarget unit
            (Set_InitPush unit unit demo_WritePrometheus accept_all
                          tt "http://host/push" 10 label_b2)
            [(tt, PostResponse 200)]))
  = [payload_foo_b2] /\
  postBodies
    (fst (runTarget unit
            (InitPushProcessMetrics unit demo_WriteProcessMetrics accept_all
                                    "http://host/push" 10 label_b2)
            [(tt, PostResponse 200)]))
  = [payload_foo_a1_b2].
Proof.
  apply (entry_points_payload
           unit unit demo_WritePrometheus demo_WriteProcessMetrics tt
           accept_all "http://host/push" 10 label_b2 tt (PostResponse 200)
           payload_foo_b2 payload_foo_a1_b2).
  - lia.
  - reflexivity.
  - reflexivity.
  - right. exists line_foo. reflexivity.
  - reflexivity.
  - reflexivity.
Defined.

Lemma injected_lines_carry (extra : bytes) (src : bytes) (outs : list bytes) :
  newlineFree extra ->
  injectLines extra (splitLines src) = Done outs ->
  Forall (carriesLabels extra) (splitLines (joinLines outs)).
Proof.
  intros He E.
  rewrite splitLines_joinLines
    by (apply (injectLines_newlineFree _ _ _ He (splitLines_newlineFree src) E)).
  apply injectLines_outputs in E.
  induction E as [|l o ls os Ho _ IH]; constructor; [|exact IH].
  now apply (injectLine_carries _ l).
Qed.

(** X13. With extra labels that are not empty and hold no newline byte,
    every line of every body that the loop POSTs has the extra labels
    right after its first ['{'], whatever the snapshots and the outcomes
    of the POSTs are. *)
Theorem pushLoop_bodies_labelled
    (g : pusher) (st : pushState) (ticks : list tickInput) :
  0 < len (bytes_of (extraLabels g)) ->
  newlineFree (bytes_of (extraLabels g)) ->
  Forall (fun body =>
            Forall (carriesLabels (bytes_of (extraLabels g))) (splitLines body))
         (postBodies (fst (pushLoop g st ticks))).
Proof.
  intros Hlen He. apply Z.ltb_lt in Hlen.
  revert st. induction ticks as [|t ticks IH]; intros st; [constructor|].
  cbn [pushLoop]. unfold pushTick, preparePayload. rewrite Hlen.
  rewrite addExtraLabels_refines.
  destruct (injectLines (bytes_of (extraLabels g)) (splitLines ([] ++ written t)))
    as [outs|p] eqn:E; cbn [result_map]; [|constructor].
  specialize (IH (PushState ([] ++ slice_to (tmpBuf st) 0 ++ joinLines outs)
                            (slice_to (tmpBuf st) 0 ++ joinLines outs))).
  destruct (pushLoop g _ ticks) as [evs r]. cbn [fst snd bb] in *.
  change (EvWriteMetrics :: ?d ++ evs) with ((EvWriteMetrics :: d) ++ evs).
  rewrite postBodies_app. cbn [postBodies]. rewrite postBodies_deliver.
  constructor; [|exact IH].
  replace (slice_to (tmpBuf st) 0) with (@nil byte) by reflexivity.
  cbn [app]. now apply (injected_lines_carry _ ([] ++ written t)).
Qed.

Lemma pushLoop_bodies_labelled_witness :
  Forall (fun body =>
            Forall (carriesLabels (bytes_of (extraLabels push_b2)))
                   (splitLines body))
         (postBodies
            (fst (pushLoop push_b2 (PushState [] [])
                           [Tick line_foo (PostResponse 500);
                            Tick line_foo_a1 (PostError "connection refused")]))).
Proof.
  apply (pushLoop_bodies_labelled push_b2 (PushState [] [])).
  - reflexivity.
  - vm_compute. intuition discriminate.
Defined.

(** X14. Ticks do not depend on the ticks before them: the loop over two
    runs of ticks does what it does over the first run and then, unless
    that one panicked, what a fresh loop does over the second run. *)
Theorem pushLoop_app
    (g : pusher) (st : pushState) (ticks1 ticks2 : list tickInput) :
  pushLoop g st (ticks1 ++ ticks2) =
  match pushLoop g st ticks1 with
  | (evs1, Some p) => (evs1, Some p)
  | (evs1, None) =>
      (evs1 ++ fst (pushLoop g (PushState [] []) ticks2),
       snd (pushLoop g (PushState [] []) ticks2))
  end.
Proof.
  revert st. induction ticks1 as [|t ticks1 IH]; intros st; cbn [app pushLoop].
  - rewrite (pushLoop_any_state g st (PushState [] []) ticks2).
    now destruct (pushLoop g (PushState [] []) ticks2).
  - destruct (pushTick g st t) as [evs [st'|p]]; [|reflexivity].
    rewrite IH. destruct (pushLoop g st' ticks1) as [evs1 [p|]];
      [reflexivity|].
    now rewrite app_assoc.
Qed.
